(** * Block synchronisation of the explorer indexer

    A shallow embedding of [Syncer], of the [syncBlocks] state machine and of
    [TransactionRepository.upsertMany], with the properties of the batch
    planner, of the range syncer and of the machine proved on it.

    Conventions of the embedding.
    - Heights, cursors, [offset] and [limit] are JavaScript numbers holding
      integers; they are modelled as [Z].  On integers below 2^53 the
      arithmetic of the planner is exact, including [Math.ceil (diff / offset)]
      (a quotient that is not an integer is at least [1 / offset] away from
      the next integer, more than the rounding error of the division).
    - [header.height] is a decimal string in the generated SDK; the model keeps
      the integer that [Number] reads from it.
    - [undefined] and [null] are [None].
    - A rejected promise or a thrown exception is [Throw e].
    - What the code does outside itself (rows written, work items pushed,
      requests sent to the node, console lines) is threaded through as a
      [World]; what the outside answers is read from an [Env].
    - Ranges that run in parallel start in the order of the plan and
      complete in any order; a range that completes runs from the answer of
      the node to the end of its transaction without interleaving.  A round
      is rejected at the first rejected range, with the other ranges still
      in flight.
    - The world also keeps the trace of the calls of [syncBlocksRange] (a
      call starts, its promise settles), to state the order of execution. *)

From Stdlib Require Import ZArith Lia.
From stdpp Require Import base list gmap strings.

Local Open Scope Z_scope.

(** ** Exceptions and results *)

Inductive Collaborator := NodeClient | BlockStore | Queue | Config.

Inductive exn :=
| RangeError                                  (* "Invalid array length" *)
| Rejected (who : Collaborator) (msg : string)
| SyncFailed (cause : exn).                   (* the error of the catch block of the handler *)

Inductive result (A : Type) :=
| Ok (a : A)
| Throw (e : exn).
Arguments Ok {A} a.
Arguments Throw {A} e.

Definition bind {A B} (r : result A) (k : A -> result B) : result B :=
  match r with
  | Ok a => k a
  | Throw e => Throw e
  end.

(** ** JavaScript numbers that are not integers

    [diff / offset] leaves the integers when [offset] is 0; [Array.from]
    reads its [length] through [ToLength]. *)

Module Js.

Inductive number :=
| Finite (z : Z)
| PosInfinity
| NegInfinity
| NaN.

(** [Math.ceil (a / b)] on integers [a] and [b]. *)
Definition ceil_div (a b : Z) : number :=
  if b =? 0 then
    if 0 <? a then PosInfinity
    else if a <? 0 then NegInfinity
    else NaN
  else Finite (- ((- a) / b)).

Definition MAX_SAFE_INTEGER : Z := 2 ^ 53 - 1.
Definition MAX_ARRAY_LENGTH : Z := 2 ^ 32 - 1.

Definition ToLength (n : number) : Z :=
  match n with
  | NaN | NegInfinity => 0
  | PosInfinity => MAX_SAFE_INTEGER
  | Finite z => Z.min (Z.max z 0) MAX_SAFE_INTEGER
  end.

(** [Array.from({ length: n }).map((_, page) => f page)]: creating an
    array longer than 2^32 - 1 throws a [RangeError]. *)
Definition Array_from_length_map {A} (n : number) (f : Z -> A) : result (list A) :=
  let len := ToLength n in
  if MAX_ARRAY_LENGTH <? len then Throw RangeError
  else Ok (map (fun page : nat => f (Z.of_nat page)) (seq 0 (Z.to_nat len))).

(** [Boolean(x)] on an optional boolean. *)
Definition Boolean (x : option bool) : bool := default false x.

End Js.

(** ** Data model *)

Record Header := { height : Z }.
Record GQLBlock := { block_id : string; header : Header }.

(** [EventsReturn], the outcome of a round or of one range. *)
Record EventsReturn := {
  endCursor : option Z;
  hasBlocks : bool
}.

(** The job input [QueueInputs[SYNC_BLOCKS]]. *)
Record Input := {
  input_cursor : option Z;
  input_offset : option Z;
  input_watch : option bool
}.

(** The machine context.  Its factory stores [input.cursor ?? 0], so the
    cursor of a context is always a number. *)
Record Context := {
  cursor : Z;
  offset : Z;
  limit : Z;
  lastBlock : option GQLBlock;
  lastResult : option EventsReturn;
  watch : option bool
}.

Record Window := { from : Z; to : Z }.

(** ** External collaborators

    [BlockRepository], the database connection, the queue and the
    configuration are not part of the component; their answers are the
    fields of an environment. *)

(** The page returned by [BlockRepository.blocksFromNode (first, after)];
    entries of [blocks] may be null. *)
Record BlocksPage := {
  blocks : list (option GQLBlock);
  pageEndCursor : option Z
}.

Record Env := {
  (** [env.get ('IS_DEV_TEST')] *)
  IS_DEV_TEST : bool;
  (** [Number (env.get ('SYNC_OFFSET'))] and [Number (env.get ('SYNC_LIMIT'))]:
      an integer, or the exception of a configuration that cannot be read. *)
  SYNC_OFFSET : result Z;
  SYNC_LIMIT : result Z;
  (** [BlockRepository.latestBlockFromNode ()] *)
  latestBlockFromNode : result GQLBlock;
  (** [BlockRepository.blocksFromNode (first, after)] *)
  blocksFromNode : Z -> Z -> result BlocksPage;
  (** [repo.insertMany (blocks, trx)] on the rows seen by the transaction:
      the rows after the call and the exception it raised, if any (the rows
      may then hold a part of the batch). *)
  insertMany : list (option GQLBlock) -> list GQLBlock -> list GQLBlock * option exn;
  (** [queue.push (SYNC_TRANSACTIONS, { blocks })]: the exception raised, if any. *)
  queuePush : list GQLBlock -> option exn;
  (** COMMIT of the rows written by the transaction: the exception raised, if any. *)
  commit : list GQLBlock -> option exn;
  (** Which of the pending parallel ranges completes at each step: step [j]
      completes the pending range number [completion j mod pending]. *)
  completion : nat -> nat
}.

Inductive LogLine :=
| LogSyncing (from_ to_ : Z)     (* "Syncing blocks from .. to .." *)
| LogAllSynced                   (* "All blocks are synced!" *)
| LogError (e : exn).            (* console.error (error), in the catch block *)

(** A call of [syncBlocksRange] starts; its promise settles.  The order of
    these events is no state of the program: it is recorded to state in
    which order the ranges of a round are executed. *)
Inductive RangeEvent :=
| Called (ev : Window)
| Settled (ev : Window).

(** What the component changes outside itself, and the order in which its
    ranges ran. *)
Record World := {
  blocksTable : list GQLBlock;
  syncTransactionsQueue : list (list GQLBlock);
  nodeRequests : list (Z * Z);
  console : list LogLine;
  rangeTrace : list RangeEvent
}.

Definition console_log (l : LogLine) (w : World) : World :=
  {| blocksTable := blocksTable w;
     syncTransactionsQueue := syncTransactionsQueue w;
     nodeRequests := nodeRequests w;
     console := console w ++ [l];
     rangeTrace := rangeTrace w |}.

Definition request (first after : Z) (w : World) : World :=
  {| blocksTable := blocksTable w;
     syncTransactionsQueue := syncTransactionsQueue w;
     nodeRequests := nodeRequests w ++ [(first, after)];
     console := console w;
     rangeTrace := rangeTrace w |}.

Definition enqueue (item : list GQLBlock) (w : World) : World :=
  {| blocksTable := blocksTable w;
     syncTransactionsQueue := syncTransactionsQueue w ++ [item];
     nodeRequests := nodeRequests w;
     console := console w;
     rangeTrace := rangeTrace w |}.

Definition with_table (rows : list GQLBlock) (w : World) : World :=
  {| blocksTable := rows;
     syncTransactionsQueue := syncTransactionsQueue w;
     nodeRequests := nodeRequests w;
     console := console w;
     rangeTrace := rangeTrace w |}.

Definition record_range (e : RangeEvent) (w : World) : World :=
  {| blocksTable := blocksTable w;
     syncTransactionsQueue := syncTransactionsQueue w;
     nodeRequests := nodeRequests w;
     console := console w;
     rangeTrace := rangeTrace w ++ [e] |}.

(** [db.connection().transaction(body)]: [body] works on the rows of the
    transaction; they replace the table when [body] returns and the commit
    succeeds, and are dropped when [body] throws or the commit fails.
    What [body] did outside the database stays done. *)
Definition transaction {A} (env : Env)
    (body : list GQLBlock -> World -> result A * list GQLBlock * World)
    (w : World) : result A * World :=
  let '(r, trx, w') := body (blocksTable w) w in
  match r with
  | Throw e => (Throw e, with_table (blocksTable w) w')
  | Ok a =>
      match commit env trx with
      | Some e => (Throw e, with_table (blocksTable w) w')
      | None => (Ok a, with_table trx w')
      end
  end.

(** ** The syncer *)

Module Syncer.

Definition getLatestBlock (env : Env) : result GQLBlock :=
  latestBlockFromNode env.

Definition getLastBlockHeight (ctx : Context) : Z :=
  match lastBlock ctx with
  | Some b => height (header b)
  | None => 0
  end.

Definition getIdsRange (ctx : Context) : Window :=
  let lastHeight := getLastBlockHeight ctx in
  let from_ := cursor ctx in
  let to_ := cursor ctx + limit ctx in
  {| from := from_; to := if lastHeight <? to_ then lastHeight else to_ |}.

(** The body of the [map] callback of [createBatchEvents]. *)
Definition batchEvent (ctx : Context) (page : Z) : Window :=
  let idsRange := getIdsRange ctx in
  let lastHeight := getLastBlockHeight ctx in
  let from_ := from idsRange + page * offset ctx in
  let to_ := from_ + offset ctx in
  {| from := from_; to := if lastHeight <? to_ then lastHeight else to_ |}.

Definition createBatchEvents (ctx : Context) : result (list Window) :=
  let idsRange := getIdsRange ctx in
  let diff := to idsRange - from idsRange in
  let numberOfBatches := Js.ceil_div diff (offset ctx) in
  Js.Array_from_length_map numberOfBatches (batchEvent ctx).

(** [syncBlocksRange] up to its first [await]: the log line and, outside
    the test mode, the request sent to the node. *)
Definition syncBlocksRange_call (env : Env) (ev : Window) (w : World) : World :=
  let w := record_range (Called ev) w in
  let w := console_log (LogSyncing (from ev) (to ev)) w in
  if negb (IS_DEV_TEST env) then request (to ev - from ev) (from ev) w else w.

(** The body of the transaction callback. *)
Definition persist (env : Env) (page : BlocksPage) (r : EventsReturn)
    (trx : list GQLBlock) (w : World) : result EventsReturn * list GQLBlock * World :=
  let '(trx', failed) := insertMany env (blocks page) trx in
  match failed with
  | Some e => (Throw e, trx', w)
  | None =>
      let item := omap id (blocks page) in
      match queuePush env item with
      | Some e => (Throw e, trx', w)
      | None => (Ok r, trx', enqueue item w)
      end
  end.

(** The body of [syncBlocksRange] after the log line. *)
Definition syncBlocksRange_body (env : Env) (ev : Window) (w : World)
    : result EventsReturn * World :=
  if negb (IS_DEV_TEST env) then
    match blocksFromNode env (to ev - from ev) (from ev) with
    | Throw e => (Throw e, w)
    | Ok page =>
        let hasBlocks_ := (0 <? length (blocks page))%nat in
        transaction env
          (persist env page {| endCursor := pageEndCursor page; hasBlocks := hasBlocks_ |}) w
    end
  else (Ok {| endCursor := Some (to ev); hasBlocks := true |}, w).

(** [syncBlocksRange] from the answer of the node to the moment its promise
    settles. *)
Definition syncBlocksRange_resume (env : Env) (ev : Window) (w : World)
    : result EventsReturn * World :=
  let '(res, w') := syncBlocksRange_body env ev w in
  (res, record_range (Settled ev) w').

Definition syncBlocksRange (env : Env) (ev : Window) (w : World)
    : result EventsReturn * World :=
  syncBlocksRange_resume env ev (syncBlocksRange_call env ev w).

(** [for (const event of events) { results.push (await syncBlocksRange (event)) }] *)
Fixpoint forAwait (env : Env) (events : list Window) (results : list EventsReturn)
    (w : World) : result (list EventsReturn) * World :=
  match events with
  | [] => (Ok results, w)
  | ev :: rest =>
      match syncBlocksRange env ev w with
      | (Ok r, w') => forAwait env rest (results ++ [r]) w'
      | (Throw e, w') => (Throw e, w')
      end
  end.

(** [events.map (syncBlocksRange)]: every call runs to its first [await],
    in the order of the plan. *)
Definition callAll (env : Env) (events : list Window) (w : World) : World :=
  foldl (fun w ev => syncBlocksRange_call env ev w) w events.

(** The state of [Promise.all] over the ranges in flight: the ranges not
    yet settled with their index, the result slots, the first rejection. *)
Record InFlight := {
  pending : list (nat * Window);
  slots : list (option EventsReturn);
  rejection : option exn
}.

Definition settle (env : Env) (k : nat) (fl : InFlight) (w : World) : InFlight * World :=
  match pending fl !! k with
  | None => (fl, w)
  | Some (i, ev) =>
      let '(r, w') := syncBlocksRange_resume env ev w in
      ({| pending := delete k (pending fl);
          slots := match r with Ok v => <[i := Some v]> (slots fl) | Throw _ => slots fl end;
          rejection := match rejection fl, r with
                       | None, Throw e => Some e
                       | rej, _ => rej
                       end |}, w')
  end.

(** The ranges complete one at a time, in the order chosen by
    [completion env]; a range that completes runs from the answer of the
    node to the end of its transaction.  [Promise.all] is settled as soon as
    a range is rejected: the ranges still pending stay in flight. *)
Fixpoint settleAll (env : Env) (n : nat) (j : nat) (fl : InFlight) (w : World)
    : InFlight * World :=
  match n with
  | O => (fl, w)
  | S n' =>
      match rejection fl with
      | Some _ => (fl, w)
      | None =>
          let k := (completion env j `mod` length (pending fl))%nat in
          let '(fl', w') := settle env k fl w in
          settleAll env n' (S j) fl' w'
      end
  end.

Definition inFlight (events : list Window) : InFlight :=
  {| pending := imap (fun i ev => (i, ev)) events;
     slots := replicate (length events) None;
     rejection := None |}.

(** [await Promise.all (actions)]: the values in the order of [actions]
    once every range has succeeded, or the first rejection at the moment it
    occurs. *)
Definition Promise_all (env : Env) (events : list Window) (w : World)
    : result (list EventsReturn) * World :=
  let '(fl', w') := settleAll env (length events) 0 (inFlight events) (callAll env events w) in
  match rejection fl' with
  | Some e => (Throw e, w')
  | None => (Ok (omap id (slots fl')), w')
  end.

(** The ranges of a round keep running after [Promise.all] has rejected:
    every range completes, in the same order. *)
Fixpoint settleRest (env : Env) (n : nat) (j : nat) (fl : InFlight) (w : World)
    : InFlight * World :=
  match n with
  | O => (fl, w)
  | S n' =>
      let k := (completion env j `mod` length (pending fl))%nat in
      let '(fl', w') := settle env k fl w in
      settleRest env n' (S j) fl' w'
  end.

(** The world once every range of the round has settled, whether the
    round was rejected or not. *)
Definition settledWorld (env : Env) (events : list Window) (w : World) : World :=
  (settleRest env (length events) 0 (inFlight events) (callAll env events w)).2.

(** [results[results.length - 1]] *)
Definition lastOf (results : list EventsReturn) : option EventsReturn :=
  last results.

Definition syncBlocks (env : Env) (ctx : Context) (w : World)
    : result (option EventsReturn) * World :=
  match createBatchEvents ctx with
  | Throw e => (Throw e, w)
  | Ok events =>
      if (0 <? cursor ctx) && bool_decide (events = []) then
        (Ok (Some {| endCursor := Some (cursor ctx); hasBlocks := false |}),
         console_log LogAllSynced w)
      else if IS_DEV_TEST env then
        match forAwait env events [] w with
        | (Ok results, w') => (Ok (lastOf results), w')
        | (Throw e, w') => (Throw e, w')
        end
      else
        match Promise_all env events w with
        | (Ok results, w') => (Ok (lastOf results), w')
        | (Throw e, w') => (Throw e, w')
        end
  end.

Definition syncMissingBlocks (env : Env) (ctx : Context) (w : World)
    : result EventsReturn * World :=
  match getLatestBlock env with
  | Throw e => (Throw e, w)
  | Ok lastBlock_ =>
      let height_ :=
        getLastBlockHeight
          {| cursor := cursor ctx; offset := offset ctx; limit := limit ctx;
             lastBlock := Some lastBlock_; lastResult := lastResult ctx;
             watch := watch ctx |} in
      syncBlocksRange env {| from := cursor ctx; to := height_ |} w
  end.

End Syncer.

(** ** The state machine *)

Inductive StateValue :=
| idle
| gettingLastBlock
| syncingBlocks
| checking
| waiting
| syncingMissingBlocks
| resettingLastBlock.

(** [START_SYNC], the done events of the invoked actors, the delay of
    [waiting], and the error of an invoked actor. *)
Inductive Event :=
| START_SYNC
| done_getLatestBlock (output : GQLBlock)
| done_syncBlocks (output : option EventsReturn)
| done_syncMissingBlocks (output : option EventsReturn)
| after_1000
| error_actor (e : exn).

Inductive Status :=
| active
| error (e : exn).

Record Snapshot := {
  value : StateValue;
  context : Context;
  status : Status
}.

Module Machine.

(** *** Guards *)

Definition hasMoreEvents (ctx : Context) : bool :=
  match lastResult ctx with
  | Some r => hasBlocks r
  | None => false
  end.

Definition needToWatch (ctx : Context) : bool :=
  Js.Boolean (watch ctx).

(** *** Actions *)

(** [assign ({ lastBlock: event.output })] *)
Definition assign_lastBlock (output : GQLBlock) (ctx : Context) : Context :=
  {| cursor := cursor ctx; offset := offset ctx; limit := limit ctx;
     lastBlock := Some output; lastResult := lastResult ctx; watch := watch ctx |}.

(** [assign ({ lastResult: event.output,
               cursor: event.output?.endCursor ?? context.cursor })] *)
Definition assign_lastResult (output : option EventsReturn) (ctx : Context) : Context :=
  {| cursor := default (cursor ctx) (output ≫= endCursor);
     offset := offset ctx; limit := limit ctx;
     lastBlock := lastBlock ctx; lastResult := output; watch := watch ctx |}.

(** [context: ({ input }) => ...]; the properties are read in the order
    of the object literal, [SYNC_OFFSET] only when [input.offset] is
    missing. *)
Definition initialContext (env : Env) (input : Input) : result Context :=
  bind (match input_offset input with
        | Some o => Ok o
        | None => SYNC_OFFSET env
        end) (fun offset_ =>
  bind (SYNC_LIMIT env) (fun limit_ =>
  Ok {| cursor := default 0 (input_cursor input);
        offset := offset_;
        limit := limit_;
        lastBlock := None;
        lastResult := None;
        watch := input_watch input |})).

(** *** Transitions *)

(** The transition taken by a state on an event; an event that the state
    does not handle is dropped. *)
Definition transition (s : StateValue) (ctx : Context) (ev : Event)
    : StateValue * Context :=
  match s, ev with
  | idle, START_SYNC => (gettingLastBlock, ctx)
  | gettingLastBlock, done_getLatestBlock b => (syncingBlocks, assign_lastBlock b ctx)
  | syncingBlocks, done_syncBlocks out => (checking, assign_lastResult out ctx)
  | waiting, after_1000 => (syncingMissingBlocks, ctx)
  | syncingMissingBlocks, done_syncMissingBlocks out =>
      (resettingLastBlock, assign_lastResult out ctx)
  | resettingLastBlock, done_getLatestBlock b => (waiting, assign_lastBlock b ctx)
  | _, _ => (s, ctx)
  end.

(** The [always] transitions, taken as soon as the state is entered. *)
Definition always (s : StateValue) (ctx : Context) : StateValue :=
  match s with
  | checking =>
      if hasMoreEvents ctx then syncingBlocks
      else if needToWatch ctx then waiting
      else idle
  | _ => s
  end.

(** One macrostep of the actor.  No [invoke] has an [onError]: the error
    of an invoked actor stops the machine with that error. *)
Definition send (snap : Snapshot) (ev : Event) : Snapshot :=
  match status snap with
  | error _ => snap
  | active =>
      match ev with
      | error_actor e =>
          {| value := value snap; context := context snap; status := error e |}
      | _ =>
          let '(s, ctx) := transition (value snap) (context snap) ev in
          {| value := always s ctx; context := ctx; status := active |}
      end
  end.

(** *** The invoked actors *)

(** What the state in which the machine rests does, and the event that
    comes back; [idle] waits for [START_SYNC]. *)
Definition invoke (env : Env) (snap : Snapshot) (w : World) : option Event * World :=
  match value snap with
  | idle | checking => (None, w)
  | gettingLastBlock | resettingLastBlock =>
      match Syncer.getLatestBlock env with
      | Ok b => (Some (done_getLatestBlock b), w)
      | Throw e => (Some (error_actor e), w)
      end
  | syncingBlocks =>
      match Syncer.syncBlocks env (context snap) w with
      | (Ok out, w') => (Some (done_syncBlocks out), w')
      | (Throw e, w') => (Some (error_actor e), w')
      end
  | waiting => (Some after_1000, w)
  | syncingMissingBlocks =>
      match Syncer.syncMissingBlocks env (context snap) w with
      | (Ok out, w') => (Some (done_syncMissingBlocks (Some out)), w')
      | (Throw e, w') => (Some (error_actor e), w')
      end
  end.

(** A running machine: the events it has taken so far (oldest first), its
    snapshot, the world. *)
Record Run := {
  history : list Event;
  snapshot : Snapshot;
  world : World
}.

Definition step (env : Env) (r : Run) : Run :=
  match status (snapshot r) with
  | error _ => r
  | active =>
      match invoke env (snapshot r) (world r) with
      | (None, w') => {| history := history r; snapshot := snapshot r; world := w' |}
      | (Some ev, w') =>
          {| history := history r ++ [ev];
             snapshot := send (snapshot r) ev;
             world := w' |}
      end
  end.

(** The machine driven through a sequence of environments, one for each
    step: the node, the store and the queue may answer differently from
    one step to the next. *)
Definition run (envs : list Env) (r : Run) : Run :=
  foldl (fun r env => step env r) r envs.

End Machine.

(** ** The exported handler

    Nothing in the [try] block is awaited and nothing in it throws:
    [createActor] keeps an error of the context factory in the snapshot of
    the actor, [start] reports it to the error observers, of which there is
    none, and [send] to an actor that is not running does nothing.  The
    handler returns once [START_SYNC] is sent, holding the actor in
    [gettingLastBlock]; the invoked actors run afterwards.  The [catch]
    block, with its [console.error] and its wrapping error, is never
    entered. *)

Record Handled := {
  returned : result unit;          (* how the promise of the handler settles *)
  actor : option Machine.Run;      (* the actor left running, if any *)
  logged : World;                  (* the world when the handler returns *)
  unhandled : option exn           (* the error the actor could report to no observer *)
}.

Definition syncBlocks (env : Env) (data : Input) (w : World) : Handled :=
  match Machine.initialContext env data with
  | Ok ctx =>
      let created := {| value := idle; context := ctx; status := active |} in
      {| returned := Ok tt;
         actor := Some {| Machine.history := [START_SYNC];
                          Machine.snapshot := Machine.send created START_SYNC;
                          Machine.world := w |};
         logged := w;
         unhandled := None |}
  | Throw e =>
      {| returned := Ok tt;
         actor := None;
         logged := w;
         unhandled := Some e |}
  end.

(** ** The transaction repository *)

Module TransactionRepository.

Section Repository.

(** [GQLTransaction], the columns of [TransactionsTable] other than
    [_id] and [data], and [TransactionEntity] with its [toDBItem] and
    [create] belong to other modules; they are parameters.  The table is a
    map from the key [_id] to the row. *)
Variables GQLTransaction Columns TransactionEntity : Type.

Record TransactionItem := {
  _id : string;
  data : GQLTransaction;
  columns : Columns
}.

Variable toDBItem : GQLBlock -> GQLTransaction -> nat -> TransactionItem.
Variable create : TransactionItem -> TransactionEntity.

Definition set_data (d : GQLTransaction) (row : TransactionItem) : TransactionItem :=
  {| _id := _id row; data := d; columns := columns row |}.

(** [INSERT ... VALUES values ON CONFLICT (_id) DO UPDATE SET data = data
    RETURNING *], one proposed row after the other.  [data] on the right
    is [cls.data.getSQL ()], the column of the row already in the table.
    The statement fails when it would touch a row a second time.  Other
    failures of the database (a lost connection, another constraint of the
    table) are not modelled: what is proved of this statement is about the
    calls that succeed and about this failure. *)
Fixpoint insertOnConflictDoUpdate (values : list TransactionItem)
    (touched : gset string) (tbl : gmap string TransactionItem)
    (returning : list TransactionItem)
    : result (gmap string TransactionItem * list TransactionItem) :=
  match values with
  | [] => Ok (tbl, returning)
  | v :: rest =>
      if bool_decide (_id v ∈ touched) then
        Throw (Rejected BlockStore "ON CONFLICT DO UPDATE command cannot affect row a second time")
      else
        let row := match tbl !! _id v with
                   | Some existing => set_data (data existing) existing
                   | None => v
                   end in
        insertOnConflictDoUpdate rest ({[ _id v ]} ∪ touched)
          (<[ _id v := row ]> tbl) (returning ++ [row])
  end.

(** [.values (values)] throws on an empty array. *)
Definition upsertMany (inserts : list (GQLBlock * GQLTransaction))
    (tbl : gmap string TransactionItem)
    : result (gmap string TransactionItem * list TransactionEntity) :=
  let values := imap (fun index item => toDBItem item.1 item.2 index) inserts in
  if bool_decide (values = []) then
    Throw (Rejected BlockStore "values() must be called with at least one value")
  else
    bind (insertOnConflictDoUpdate values ∅ tbl []) (fun '(tbl', items) =>
    Ok (tbl', map create items)).

(** The statement of [createUpsertOne]: one proposed row; on a conflict on
    [_id] the [data] column takes the transaction.  [returning ()] gives
    the row written. *)
Definition createUpsertOne (tbl : gmap string TransactionItem) (block : GQLBlock)
    (transaction : GQLTransaction) (index : nat)
    : gmap string TransactionItem * TransactionEntity :=
  let value := toDBItem block transaction index in
  let item := match tbl !! _id value with
              | Some existing => set_data transaction existing
              | None => value
              end in
  (<[ _id value := item ]> tbl, create item).

Definition upsertOne (block : GQLBlock) (transaction : GQLTransaction) (index : nat)
    (tbl : gmap string TransactionItem)
    : gmap string TransactionItem * TransactionEntity :=
  createUpsertOne tbl block transaction index.

End Repository.

End TransactionRepository.

(** ** Vocabulary of the statements *)

Definition emptyWorld : World :=
  {| blocksTable := []; syncTransactionsQueue := []; nodeRequests := []; console := [];
     rangeTrace := [] |}.

(** [tiles a ws b]: the windows [ws] are non-empty, each starts where the
    previous one ends, the first starts at [a] and the last ends at [b]. *)
Fixpoint tiles (a : Z) (ws : list Window) (b : Z) : Prop :=
  match ws with
  | [] => a = b
  | w :: ws' => from w = a /\ from w < to w /\ tiles (to w) ws' b
  end.

(** The height [h] lies in one of the windows. *)
Definition covered (ws : list Window) (h : Z) : Prop :=
  Exists (fun w => from w <= h < to w) ws.

(** [Math.ceil (diff / offset)] of [createBatchEvents], for [offset <> 0]. *)
Definition numberOfBatches (ctx : Context) : Z :=
  let idsRange := Syncer.getIdsRange ctx in
  - ((- (to idsRange - from idsRange)) / offset ctx).

(** The bound of a round as the specification gives it. *)
Definition limitEnd (ctx : Context) : Z :=
  Z.min (cursor ctx + limit ctx) (Syncer.getLastBlockHeight ctx).

(** Where the plan of a round ends: a whole number of offsets after the
    cursor, clamped to the head. *)
Definition planEnd (ctx : Context) : Z :=
  Z.min (cursor ctx + numberOfBatches ctx * offset ctx) (Syncer.getLastBlockHeight ctx).

(** The plan covers exactly the interval from the cursor to [limitEnd]. *)
Definition plans_to_limit (ctx : Context) (ws : list Window) : Prop :=
  tiles (cursor ctx) ws (Z.max (cursor ctx) (limitEnd ctx))
  /\ (forall h, covered ws h <-> cursor ctx <= h < limitEnd ctx)
  /\ Forall (fun w => to w <= cursor ctx + limit ctx) ws.

Definition mkContext (c o l : Z) (head : option Z) (wtch : option bool) : Context :=
  {| cursor := c; offset := o; limit := l;
     lastBlock := (fun h => {| block_id := "head"; header := {| height := h |} |}) <$> head;
     lastResult := None; watch := wtch |}.

(** The value that [syncBlocksRange] returns for a window, when it
    returns: it is read from the flag or from the answer of the node. *)
Definition rangeValue (env : Env) (ev : Window) : option EventsReturn :=
  if IS_DEV_TEST env then Some {| endCursor := Some (to ev); hasBlocks := true |}
  else
    match blocksFromNode env (to ev - from ev) (from ev) with
    | Ok page =>
        Some {| endCursor := pageEndCursor page;
                hasBlocks := (0 <? length (blocks page))%nat |}
    | Throw _ => None
    end.

(** The same environment with another completion order of the parallel
    ranges. *)
Definition with_completion (order : nat -> nat) (env : Env) : Env :=
  {| IS_DEV_TEST := IS_DEV_TEST env;
     SYNC_OFFSET := SYNC_OFFSET env;
     SYNC_LIMIT := SYNC_LIMIT env;
     latestBlockFromNode := latestBlockFromNode env;
     blocksFromNode := blocksFromNode env;
     insertMany := insertMany env;
     queuePush := queuePush env;
     commit := commit env;
     completion := order |}.

(** Invariant of [Promise.all] for the range [ev] planned at index [i]:
    the range is still pending, or a range was rejected, or its slot holds
    its value. *)
Definition inFlight_ok (env : Env) (events : list Window) (i : nat) (ev : Window)
    (fl : Syncer.InFlight) : Prop :=
  length (Syncer.slots fl) = length events
  /\ (forall k i' ev', Syncer.pending fl !! k = Some (i', ev') -> events !! i' = Some ev')
  /\ ((exists k, Syncer.pending fl !! k = Some (i, ev))
      \/ is_Some (Syncer.rejection fl)
      \/ exists r, Syncer.slots fl !! i = Some (Some r) /\ rangeValue env ev = Some r).

(** The machine resting in a state. *)
Definition resting (s : StateValue) (ctx : Context) : Snapshot :=
  {| value := s; context := ctx; status := active |}.

(** The value of a range in the test mode. *)
Definition devValue (ev : Window) : EventsReturn :=
  {| endCursor := Some (to ev); hasBlocks := true |}.

(** A range run in the test mode: it is called, writes its log line and
    settles. *)
Definition runInTurn (events : list Window) (w : World) : World :=
  foldl (fun w ev =>
           record_range (Settled ev)
             (console_log (LogSyncing (from ev) (to ev)) (record_range (Called ev) w)))
        w events.

(** The trace of ranges executed strictly one after the other: each range
    settles before the next is called. *)
Definition inTurn (events : list Window) : list RangeEvent :=
  flat_map (fun ev => [Called ev; Settled ev]) events.

(** The machine stopped in state [s] by the error [e] of its actor. *)
Definition stopped (s : StateValue) (ctx : Context) (e : exn) : Snapshot :=
  {| value := s; context := ctx; status := error e |}.

(** The output of the last round in a history: the output of the last
    [done_syncBlocks] event. *)
Fixpoint lastRound (h : list Event) : option (option EventsReturn) :=
  match h with
  | [] => None
  | ev :: h' =>
      match lastRound h' with
      | Some out => Some out
      | None =>
          match ev with
          | done_syncBlocks out => Some out
          | _ => None
          end
      end
  end.

(** The round reported [hasBlocks = false]. *)
Definition reportedNoBlocks (out : option EventsReturn) : Prop :=
  exists r, out = Some r /\ hasBlocks r = false.

(** The round did not report blocks: it reported [hasBlocks = false] or
    returned no result. *)
Definition noBlocks (out : option EventsReturn) : Prop :=
  match out with
  | Some r => hasBlocks r = false
  | None => True
  end.

Definition caughtUp (r : Machine.Run) : Prop :=
  exists out, lastRound (Machine.history r) = Some out /\ noBlocks out.

(** Invariant of a started machine: the watch loop and [idle] are entered
    only from a round without blocks, [idle] only without watch mode. *)
Definition watch_inv (r : Machine.Run) : Prop :=
  match value (Machine.snapshot r) with
  | waiting | syncingMissingBlocks | resettingLastBlock => caughtUp r
  | idle => caughtUp r /\ Machine.needToWatch (context (Machine.snapshot r)) = false
  | gettingLastBlock | syncingBlocks | checking => True
  end.

(** The node never reports an [endCursor] below the start of a window that
    is not reversed. *)
Definition reports_progress (env : Env) : Prop :=
  forall ev r c,
    from ev <= to ev -> rangeValue env ev = Some r -> endCursor r = Some c -> from ev <= c.

(** The head that the node reports is not below the cursor. *)
Definition head_not_below (env : Env) (ctx : Context) : Prop :=
  forall b, latestBlockFromNode env = Ok b -> cursor ctx <= height (header b).

(** The machine started by the handler on an empty world and driven
    through [envs]. *)
Definition runFrom (envs : list Env) (env : Env) (data : Input) : option Machine.Run :=
  Machine.run envs <$> actor (syncBlocks env data emptyWorld).

(** No collaborator fails. *)
Definition reliable (env : Env) : Prop :=
  (forall first after, exists page, blocksFromNode env first after = Ok page)
  /\ (forall batch rows, (insertMany env batch rows).2 = None)
  /\ (forall item, queuePush env item = None)
  /\ (forall rows, commit env rows = None).

(** The request that a range sends to the node. *)
Definition requestOf (ev : Window) : Z * Z := (to ev - from ev, from ev).

(** The node answers the request of the range. *)
Definition fetched (env : Env) (ev : Window) : bool :=
  match blocksFromNode env (to ev - from ev) (from ev) with
  | Ok _ => true
  | Throw _ => false
  end.

(** The store, the queue and the commit never fail. *)
Definition store_reliable (env : Env) : Prop :=
  (forall batch rows, (insertMany env batch rows).2 = None)
  /\ (forall item, queuePush env item = None)
  /\ (forall rows, commit env rows = None).

(** Every range below the height [head] is answered in full: blocks come
    back and the [endCursor] is the end of the range. *)
Definition full_pages (env : Env) (head : Z) : Prop :=
  forall ev, from ev < to ev -> to ev <= head ->
    rangeValue env ev = Some {| endCursor := Some (to ev); hasBlocks := true |}.

(** The rounds of the environment return: it runs in the test mode or its
    collaborators are reliable. *)
Definition rounds_return (env : Env) : Prop :=
  IS_DEV_TEST env = true \/ reliable env.

(** The states of the watch loop. *)
Definition inWatchLoop (s : StateValue) : bool :=
  match s with
  | waiting | syncingMissingBlocks | resettingLastBlock => true
  | _ => false
  end.

(** The machine at the start of a round. *)
Definition atRound (h : list Event) (ctx : Context) (w : World) : Machine.Run :=
  {| Machine.history := h; Machine.snapshot := resting syncingBlocks ctx; Machine.world := w |}.

(** The rows that [upsertMany] proposes: [toDBItem] of each insert with
    its index. *)
Definition proposedRows {GQLTransaction Columns : Type}
    (toDBItem : GQLBlock -> GQLTransaction -> nat
                -> TransactionRepository.TransactionItem GQLTransaction Columns)
    (inserts : list (GQLBlock * GQLTransaction))
    : list (TransactionRepository.TransactionItem GQLTransaction Columns) :=
  imap (fun index item => toDBItem item.1 item.2 index) inserts.

(** ** Sample inputs *)

Definition blockAt (h : Z) : GQLBlock :=
  {| block_id := "block"; header := {| height := h |} |}.

(** A node that holds the blocks below [head] and answers a request with
    the blocks from [after] on, at most [first] of them. *)
Definition sampleNode (head first after : Z) : result BlocksPage :=
  let stop := Z.min (after + first) head in
  Ok {| blocks := map (fun i : nat => Some (blockAt (after + Z.of_nat i)))
                      (seq 0 (Z.to_nat (stop - after)));
        pageEndCursor := Some (Z.max after stop) |}.

Definition sampleEnv (dev : bool) (head : Z) : Env :=
  {| IS_DEV_TEST := dev;
     SYNC_OFFSET := Ok 10;
     SYNC_LIMIT := Ok 25;
     latestBlockFromNode := Ok (blockAt head);
     blocksFromNode := sampleNode head;
     insertMany := fun batch rows => (rows ++ omap id batch, None);
     queuePush := fun _ => None;
     commit := fun _ => None;
     completion := fun j => j |}.

(** The store fails after it has written the first block of the batch. *)
Definition envInsertFails : Env :=
  {| IS_DEV_TEST := false;
     SYNC_OFFSET := Ok 10;
     SYNC_LIMIT := Ok 25;
     latestBlockFromNode := Ok (blockAt 22);
     blocksFromNode := sampleNode 22;
     insertMany := fun batch rows =>
       (rows ++ take 1 (omap id batch), Some (Rejected BlockStore "insert failed"));
     queuePush := fun _ => None;
     commit := fun _ => None;
     completion := fun j => j |}.

(** The insert and the push succeed, the commit fails. *)
Definition envCommitFails : Env :=
  {| IS_DEV_TEST := false;
     SYNC_OFFSET := Ok 10;
     SYNC_LIMIT := Ok 25;
     latestBlockFromNode := Ok (blockAt 22);
     blocksFromNode := sampleNode 22;
     insertMany := fun batch rows => (rows ++ omap id batch, None);
     queuePush := fun _ => None;
     commit := fun _ => Some (Rejected BlockStore "commit failed");
     completion := fun j => j |}.

(** The node cannot be reached. *)
Definition envNodeDown : Env :=
  {| IS_DEV_TEST := false;
     SYNC_OFFSET := Ok 10;
     SYNC_LIMIT := Ok 25;
     latestBlockFromNode := Throw (Rejected NodeClient "unreachable");
     blocksFromNode := fun _ _ => Throw (Rejected NodeClient "unreachable");
     insertMany := fun batch rows => (rows ++ omap id batch, None);
     queuePush := fun _ => None;
     commit := fun _ => None;
     completion := fun j => j |}.

Definition window_20_22 : Window := {| from := 20; to := 22 |}.

Definition inputWatch (c : option Z) : Input :=
  {| input_cursor := c; input_offset := None; input_watch := Some true |}.

Definition inputOnce (c : option Z) : Input :=
  {| input_cursor := c; input_offset := None; input_watch := None |}.

(** The machine of scenario A at the start of its first round. *)
Definition runScenarioA : Machine.Run :=
  {| Machine.history := [START_SYNC];
     Machine.snapshot :=
       resting syncingBlocks
         {| cursor := 0; offset := 10; limit := 25; lastBlock := Some (blockAt 22);
            lastResult := None; watch := None |};
     Machine.world := emptyWorld |}.

(** Transactions that are their own key, with no other column. *)
Definition sampleToDBItem (b : GQLBlock) (t : string) (index : nat)
    : TransactionRepository.TransactionItem string unit :=
  {| TransactionRepository._id := t;
     TransactionRepository.data := t;
     TransactionRepository.columns := tt |}.

Definition sampleInserts : list (GQLBlock * string) :=
  [(blockAt 1, "tx-a"); (blockAt 1, "tx-b")].

(** A table that already holds a row under ["tx-a"], with other data. *)
Definition sampleTable : gmap string (TransactionRepository.TransactionItem string unit) :=
  {[ "tx-a" := {| TransactionRepository._id := "tx-a";
                  TransactionRepository.data := "stored";
                  TransactionRepository.columns := tt |} ]}.

(** The end-to-end scenario of the specification: head 22, limit 25. *)
Definition ctxScenarioA : Context := mkContext 0 10 25 (Some 22) None.

Definition planScenarioA : list Window :=
  [ {| from := 0; to := 10 |}; {| from := 10; to := 20 |}; {| from := 20; to := 22 |} ].

(** An offset of 0 with heights left to plan. *)
Definition ctxOffsetZero : Context := mkContext 0 0 25 (Some 22) None.

(** The node answers every request but the one that starts at height 10. *)
Definition envGapAt10 : Env :=
  {| IS_DEV_TEST := false;
     SYNC_OFFSET := Ok 10;
     SYNC_LIMIT := Ok 25;
     latestBlockFromNode := Ok (blockAt 22);
     blocksFromNode := fun first after =>
       if after =? 10 then Throw (Rejected NodeClient "timeout") else sampleNode 22 first after;
     insertMany := fun batch rows => (rows ++ omap id batch, None);
     queuePush := fun _ => None;
     commit := fun _ => None;
     completion := fun j => j |}.

(** The node answers every request but the one that starts at height 0. *)
Definition envGapAt0 : Env :=
  {| IS_DEV_TEST := false;
     SYNC_OFFSET := Ok 10;
     SYNC_LIMIT := Ok 25;
     latestBlockFromNode := Ok (blockAt 22);
     blocksFromNode := fun first after =>
       if after =? 0 then Throw (Rejected NodeClient "timeout") else sampleNode 22 first after;
     insertMany := fun batch rows => (rows ++ omap id batch, None);
     queuePush := fun _ => None;
     commit := fun _ => None;
     completion := fun j => j |}.

(** A head far away: the limit, not the head, bounds the round. *)
Definition ctxFarHead : Context := mkContext 0 10 25 (Some 100) None.

(** Nothing synced and an empty chain. *)
Definition ctxGenesis : Context := mkContext 0 10 25 (Some 0) None.

(** * Properties *)

(** ** The batch planner *)

Example scenario_A :
  Syncer.createBatchEvents ctxScenarioA
  = Ok [ {| from := 0; to := 10 |}; {| from := 10; to := 20 |}; {| from := 20; to := 22 |} ].
Proof. vm_compute. reflexivity. Qed.

Lemma clamp_min (lastHeight t : Z) :
  (if lastHeight <? t then lastHeight else t) = Z.min t lastHeight.
Proof. destruct (Z.ltb_spec lastHeight t); lia. Qed.

Lemma getIdsRange_from ctx : from (Syncer.getIdsRange ctx) = cursor ctx.
Proof. reflexivity. Qed.

Lemma getIdsRange_to ctx : to (Syncer.getIdsRange ctx) = limitEnd ctx.
Proof. unfold Syncer.getIdsRange, limitEnd; simpl. apply clamp_min. Qed.

Lemma batchEvent_from ctx page :
  from (Syncer.batchEvent ctx page) = cursor ctx + page * offset ctx.
Proof. reflexivity. Qed.

Lemma batchEvent_to ctx page :
  to (Syncer.batchEvent ctx page)
  = Z.min (cursor ctx + page * offset ctx + offset ctx) (Syncer.getLastBlockHeight ctx).
Proof. unfold Syncer.batchEvent; simpl. apply clamp_min. Qed.

(** The quotient of [createBatchEvents] is the ceiling of [diff / offset]. *)
Lemma numberOfBatches_ceil ctx :
  0 < offset ctx ->
  let diff := limitEnd ctx - cursor ctx in
  (numberOfBatches ctx - 1) * offset ctx < diff <= numberOfBatches ctx * offset ctx.
Proof.
  intros Hoff diff. unfold numberOfBatches.
  rewrite getIdsRange_to, getIdsRange_from. fold diff.
  pose proof (Z.div_mod (- diff) (offset ctx) ltac:(lia)) as Hdm.
  pose proof (Z.mod_pos_bound (- diff) (offset ctx) Hoff) as Hm.
  nia.
Qed.

Lemma createBatchEvents_pages ctx :
  offset ctx <> 0 ->
  numberOfBatches ctx <= Js.MAX_ARRAY_LENGTH ->
  Syncer.createBatchEvents ctx
  = Ok (map (fun page : nat => Syncer.batchEvent ctx (Z.of_nat page))
            (seq 0 (Z.to_nat (numberOfBatches ctx)))).
Proof.
  intros Hoff Hlen. unfold Syncer.createBatchEvents, Js.ceil_div.
  destruct (Z.eqb_spec (offset ctx) 0) as [|_]; [contradiction|].
  fold (numberOfBatches ctx). unfold Js.Array_from_length_map, Js.ToLength.
  assert (Hsafe : 0 < Js.MAX_ARRAY_LENGTH < Js.MAX_SAFE_INTEGER) by (split; reflexivity).
  destruct (Z.ltb_spec Js.MAX_ARRAY_LENGTH
              (Z.min (Z.max (numberOfBatches ctx) 0) Js.MAX_SAFE_INTEGER)) as [Hbig|_].
  - lia.
  - do 3 f_equal. lia.
Qed.

Lemma tiles_pages ctx (n i : nat) :
  0 < offset ctx ->
  cursor ctx + (Z.of_nat i + Z.of_nat n) * offset ctx < Syncer.getLastBlockHeight ctx ->
  tiles (cursor ctx + Z.of_nat i * offset ctx)
        (map (fun page : nat => Syncer.batchEvent ctx (Z.of_nat page)) (seq i (S n)))
        (Z.min (cursor ctx + (Z.of_nat i + Z.of_nat n + 1) * offset ctx)
               (Syncer.getLastBlockHeight ctx)).
Proof.
  intros Hoff. revert i. induction n as [|n IH]; intros i Hlast.
  - change (seq i 1) with [i]. cbn [map tiles].
    rewrite batchEvent_from, batchEvent_to. repeat split; lia.
  - change (seq i (S (S n))) with (i :: seq (S i) (S n)).
    rewrite map_cons. cbn [tiles].
    rewrite batchEvent_from, batchEvent_to. split; [reflexivity|]. split; [lia|].
    replace (Z.min (cursor ctx + Z.of_nat i * offset ctx + offset ctx)
                   (Syncer.getLastBlockHeight ctx))
      with (cursor ctx + Z.of_nat (S i) * offset ctx) by nia.
    replace (Z.of_nat i + Z.of_nat (S n) + 1) with (Z.of_nat (S i) + Z.of_nat n + 1) by lia.
    apply IH. nia.
Qed.

Lemma tiles_le a ws b : tiles a ws b -> a <= b.
Proof.
  revert a. induction ws as [|w ws IH]; simpl; intros a H.
  - lia.
  - destruct H as (Ha & Hlt & Hrest). apply IH in Hrest. lia.
Qed.

(** Windows that tile an interval cover it, height for height. *)
Lemma tiles_covered a ws b :
  tiles a ws b -> forall h, covered ws h <-> a <= h < b.
Proof.
  unfold covered. revert a. induction ws as [|w ws IH]; simpl; intros a H h.
  - rewrite Exists_nil. lia.
  - destruct H as (Ha & Hlt & Hrest). rewrite Exists_cons, (IH _ Hrest).
    apply tiles_le in Hrest. lia.
Qed.

Lemma tiles_last a ws b w :
  tiles a ws b -> last ws = Some w -> a <= from w /\ from w < to w /\ to w = b.
Proof.
  revert a. induction ws as [|w0 ws IH]; simpl; intros a Ht Hlast; [discriminate|].
  destruct Ht as (Ha & Hlt & Hrest). destruct ws as [|w1 ws].
  - injection Hlast as <-. simpl in Hrest. lia.
  - destruct (IH _ Hrest Hlast) as (Hfrom & Hw & Hb). lia.
Qed.

(** No window of a plan ends after the head. *)
Lemma createBatchEvents_to_le ctx ws :
  Syncer.createBatchEvents ctx = Ok ws ->
  Forall (fun w => to w <= Syncer.getLastBlockHeight ctx) ws.
Proof.
  unfold Syncer.createBatchEvents, Js.Array_from_length_map.
  destruct (_ <? _); [discriminate|]. intros [= <-].
  apply Forall_forall. intros w Hw. apply list_elem_of_In, in_map_iff in Hw.
  destruct Hw as (page & <- & _). rewrite batchEvent_to. lia.
Qed.

(** C1, as amended.  With a positive [offset] and the head at or above the
    cursor, the plan is returned (as long as it has at most 2^32 - 1
    windows) and its windows are non-empty, contiguous and increasing; their
    union is the interval from the cursor to [planEnd], a whole number of
    offsets after the cursor clamped to the head.  [planEnd] is at least the
    bound [min (cursor + limit, head)] of the specification and less than one
    offset above it, and equals it when the head is not above
    [cursor + limit] or when [offset] divides [limit].  When the head is
    above [cursor + limit], the limit is positive and [offset] does not
    divide it, the last window ends at [planEnd] past [cursor + limit]. *)
Theorem createBatchEvents_tiles (ctx : Context) :
  cursor ctx <= Syncer.getLastBlockHeight ctx ->
  0 < offset ctx ->
  numberOfBatches ctx <= Js.MAX_ARRAY_LENGTH ->
  exists ws,
    Syncer.createBatchEvents ctx = Ok ws
    /\ tiles (cursor ctx) ws (Z.max (cursor ctx) (planEnd ctx))
    /\ (forall h, covered ws h <-> cursor ctx <= h < planEnd ctx)
    /\ limitEnd ctx <= planEnd ctx < limitEnd ctx + offset ctx
    /\ planEnd ctx <= Syncer.getLastBlockHeight ctx
    /\ (Syncer.getLastBlockHeight ctx <= cursor ctx + limit ctx
        \/ (offset ctx | limit ctx) -> planEnd ctx = limitEnd ctx)
    /\ (cursor ctx + limit ctx < Syncer.getLastBlockHeight ctx ->
        0 < limit ctx ->
        ~ (offset ctx | limit ctx) ->
        cursor ctx + limit ctx < planEnd ctx
        /\ exists w, last ws = Some w /\ to w = planEnd ctx).
Proof.
  intros Hhead Hoff Hlen.
  pose proof (numberOfBatches_ceil ctx Hoff) as Hceil. cbv zeta in Hceil.
  assert (Hend : limitEnd ctx <= planEnd ctx < limitEnd ctx + offset ctx
                 /\ planEnd ctx <= Syncer.getLastBlockHeight ctx).
  { unfold planEnd. unfold limitEnd in *. lia. }
  assert (Htiles : tiles (cursor ctx)
            (map (fun page : nat => Syncer.batchEvent ctx (Z.of_nat page))
                 (seq 0 (Z.to_nat (numberOfBatches ctx))))
            (Z.max (cursor ctx) (planEnd ctx))).
  { destruct (Z.to_nat (numberOfBatches ctx)) as [|n] eqn:Hn.
    - simpl. unfold planEnd. assert (numberOfBatches ctx <= 0) by lia. nia.
    - assert (Hk : numberOfBatches ctx = Z.of_nat n + 1) by lia.
      pose proof (tiles_pages ctx n 0 Hoff) as Ht.
      replace (cursor ctx + Z.of_nat 0 * offset ctx) with (cursor ctx) in Ht by lia.
      replace (Z.max (cursor ctx) (planEnd ctx))
        with (Z.min (cursor ctx + (Z.of_nat 0 + Z.of_nat n + 1) * offset ctx)
                    (Syncer.getLastBlockHeight ctx)).
      + apply Ht. unfold limitEnd in Hceil. nia.
      + unfold planEnd. rewrite Hk. unfold limitEnd in Hceil.
        replace (Z.of_nat 0 + Z.of_nat n + 1) with (Z.of_nat n + 1) by lia. nia. }
  eexists. split; [apply createBatchEvents_pages; lia|].
  split; [exact Htiles|]. split; [|split; [apply Hend|split; [apply Hend|split]]].
  - intros h. rewrite (tiles_covered _ _ _ Htiles). lia.
  - intros [Hnear|[m Hm]].
    + unfold planEnd, limitEnd in *. lia.
    + unfold planEnd, limitEnd in *.
      destruct (Z.le_gt_cases (Syncer.getLastBlockHeight ctx) (cursor ctx + limit ctx));
        [lia|].
      assert (numberOfBatches ctx = m); [|subst; lia].
      rewrite Z.min_l in Hceil by lia.
      assert (m - 1 < numberOfBatches ctx) by nia.
      assert (numberOfBatches ctx - 1 < m) by nia. lia.
  - intros Hfar Hlimit Hndiv.
    assert (Hpast : cursor ctx + limit ctx < planEnd ctx).
    { unfold planEnd, limitEnd in *. rewrite Z.min_l in Hceil by lia.
      assert (numberOfBatches ctx * offset ctx <> limit ctx).
      { intros Heq. apply Hndiv. by exists (numberOfBatches ctx). }
      lia. }
    split; [exact Hpast|].
    destruct (last (map _ _)) as [w|] eqn:Hlast.
    + exists w. split; [done|].
      destruct (tiles_last _ _ _ _ Htiles Hlast) as (_ & _ & ->). lia.
    + apply last_None in Hlast. rewrite Hlast in Htiles. simpl in Htiles. lia.
Qed.

Lemma createBatchEvents_tiles_witness :
  exists ws,
    Syncer.createBatchEvents ctxFarHead = Ok ws
    /\ tiles 0 ws (Z.max 0 (planEnd ctxFarHead))
    /\ (forall h, covered ws h <-> 0 <= h < planEnd ctxFarHead)
    /\ limitEnd ctxFarHead <= planEnd ctxFarHead < limitEnd ctxFarHead + 10
    /\ planEnd ctxFarHead <= 100
    /\ (100 <= 0 + 25 \/ (10 | 25) -> planEnd ctxFarHead = limitEnd ctxFarHead)
    /\ (0 + 25 < 100 -> 0 < 25 -> ~ (10 | 25) ->
        0 + 25 < planEnd ctxFarHead
        /\ exists w, last ws = Some w /\ to w = planEnd ctxFarHead).
Proof.
  apply (createBatchEvents_tiles ctxFarHead); vm_compute; [discriminate|reflexivity|discriminate].
Defined.

Example far_head_plan_end : planEnd ctxFarHead = 30 /\ limitEnd ctxFarHead = 25.
Proof. split; reflexivity. Qed.

(** C1, as stated, fails: with cursor 0, offset 10, limit 25 and head 100
    the plan is [0,10), [10,20), [20,30), which ends after [cursor + limit]. *)
Lemma createBatchEvents_past_limit :
  cursor ctxFarHead <= Syncer.getLastBlockHeight ctxFarHead
  /\ exists ws, Syncer.createBatchEvents ctxFarHead = Ok ws
                /\ ~ plans_to_limit ctxFarHead ws.
Proof.
  split; [vm_compute; discriminate|].
  eexists. split; [vm_compute; reflexivity|].
  intros (_ & _ & Hlim). rewrite !Forall_cons in Hlim.
  destruct Hlim as (_ & _ & Hlast & _). vm_compute in Hlast. contradiction.
Qed.

(** C6.  Every window of a plan ends at or below the head known to the
    context. *)
Theorem plan_never_past_head (ctx : Context) (ws : list Window) :
  Syncer.createBatchEvents ctx = Ok ws ->
  Forall (fun w => to w <= Syncer.getLastBlockHeight ctx) ws.
Proof. apply createBatchEvents_to_le. Qed.

Lemma plan_never_past_head_witness :
  Forall (fun w => to w <= 22)
    [ {| from := 0; to := 10 |}; {| from := 10; to := 20 |}; {| from := 20; to := 22 |} ].
Proof. apply (plan_never_past_head ctxScenarioA). vm_compute. reflexivity. Defined.

(** ** The rounds *)

Lemma body_value env ev w r w' :
  Syncer.syncBlocksRange_body env ev w = (Ok r, w') -> rangeValue env ev = Some r.
Proof.
  unfold Syncer.syncBlocksRange_body, rangeValue.
  destruct (IS_DEV_TEST env); simpl.
  - intros [= <- _]. reflexivity.
  - destruct (blocksFromNode env _ _) as [page|e]; [|discriminate].
    unfold transaction, Syncer.persist.
    destruct (insertMany env _ _) as [trx' [e|]]; [discriminate|].
    destruct (queuePush env _); [discriminate|].
    destruct (commit env _); [discriminate|].
    intros [= <- _]. reflexivity.
Qed.

Lemma resume_value env ev w r w' :
  Syncer.syncBlocksRange_resume env ev w = (Ok r, w') -> rangeValue env ev = Some r.
Proof.
  unfold Syncer.syncBlocksRange_resume.
  destruct (Syncer.syncBlocksRange_body env ev w) as [res w1] eqn:Hbody.
  intros [= -> _]. by eapply body_value.
Qed.

Lemma forAwait_values env events : forall acc w results w',
  Syncer.forAwait env events acc w = (Ok results, w') ->
  exists rs, results = acc ++ rs
             /\ Forall2 (fun ev r => rangeValue env ev = Some r) events rs.
Proof.
  induction events as [|ev events IH]; simpl; intros acc w results w' H.
  - injection H as <- _. exists []. split; [by rewrite app_nil_r|constructor].
  - destruct (Syncer.syncBlocksRange env ev w) as [[r|e] w1] eqn:Hev; [|discriminate].
    apply resume_value in Hev.
    destruct (IH _ _ _ _ H) as (rs & -> & Hrs).
    exists (r :: rs). split; [by rewrite <- app_assoc|by constructor].
Qed.

Lemma settle_ok env events i ev k fl w fl' w' :
  events !! i = Some ev ->
  inFlight_ok env events i ev fl ->
  Syncer.settle env k fl w = (fl', w') ->
  inFlight_ok env events i ev fl'.
Proof.
  intros Hi (Hlen & Hpend & Hcase). unfold Syncer.settle.
  destruct (Syncer.pending fl !! k) as [[i' ev']|] eqn:Hk.
  2:{ intros [= <- _]. by repeat split. }
  destruct (Syncer.syncBlocksRange_resume env ev' w) as [res w1] eqn:Hres.
  intros [= <- _]. repeat split; simpl.
  - destruct res; [by rewrite length_insert|done].
  - intros k0 i0 ev0. rewrite list_lookup_delete. apply Hpend.
  - destruct Hcase as [[k0 Hk0]|[Hrej|(r & Hslot & Hr)]].
    + destruct (decide (k0 = k)) as [->|Hne].
      * rewrite Hk0 in Hk. injection Hk as <- <-.
        destruct res as [v|e].
        -- right. right. exists v. split; [|by eapply resume_value].
           apply list_lookup_insert_eq. rewrite Hlen. by eapply lookup_lt_Some.
        -- right. left. destruct (Syncer.rejection fl); by eexists.
      * left. destruct (decide (k0 < k)%nat).
        -- exists k0. by rewrite list_lookup_delete_lt.
        -- exists (pred k0). rewrite list_lookup_delete_ge by lia.
           by replace (S (pred k0)) with k0 by lia.
    + right. left. destruct Hrej as [e0 ->]. destruct res; by eexists.
    + right. destruct res as [v|e]; [|right; by exists r].
      right. destruct (decide (i' = i)) as [->|Hne].
      * assert (ev' = ev) as -> by (apply Hpend in Hk; congruence).
        exists v. split; [|by eapply resume_value].
        apply list_lookup_insert_eq. rewrite Hlen. by eapply lookup_lt_Some.
      * exists r. by rewrite list_lookup_insert_ne.
Qed.

Lemma settleAll_ok env events i ev n : forall j fl w fl' w',
  events !! i = Some ev ->
  inFlight_ok env events i ev fl ->
  Syncer.settleAll env n j fl w = (fl', w') ->
  inFlight_ok env events i ev fl'.
Proof.
  induction n as [|n IH]; simpl; intros j fl w fl' w' Hi Hok H.
  - by injection H as <- _.
  - destruct (Syncer.rejection fl); [by injection H as <- _|].
    destruct (Syncer.settle env _ fl w) as [fl1 w1] eqn:Hs.
    eapply IH; [done| |done]. by eapply settle_ok.
Qed.

(** After as many completions as there are ranges, none is pending,
    unless a range was rejected. *)
Lemma settleAll_drains env n : forall j fl w fl' w',
  length (Syncer.pending fl) = n ->
  Syncer.settleAll env n j fl w = (fl', w') ->
  Syncer.rejection fl' = None ->
  Syncer.pending fl' = [].
Proof.
  induction n as [|n IH]; simpl; intros j fl w fl' w' Hlen H Hnone.
  - injection H as <- _. by apply nil_length_inv.
  - destruct (Syncer.rejection fl) eqn:Hrej; [injection H as <- _; congruence|].
    destruct (Syncer.settle env _ fl w) as [fl1 w1] eqn:Hs.
    eapply IH; [|done|done]. revert Hs. unfold Syncer.settle.
    set (k := (completion env j `mod` length (Syncer.pending fl))%nat).
    assert (Hk : (k < length (Syncer.pending fl))%nat).
    { apply Nat.mod_upper_bound. lia. }
    destruct (lookup_lt_is_Some_2 _ _ Hk) as [[i' ev'] Hlk]. rewrite Hlk.
    destruct (Syncer.syncBlocksRange_resume env ev' w). intros [= <- _]. simpl.
    rewrite length_delete by (by eexists). lia.
Qed.

(** The last value of [Promise.all] is the value of the last range of the
    plan, whatever the order in which the ranges complete. *)
Lemma Promise_all_last env events lastw w results w' :
  last events = Some lastw ->
  Syncer.Promise_all env events w = (Ok results, w') ->
  exists r, rangeValue env lastw = Some r /\ last results = Some r.
Proof.
  intros Hlast. unfold Syncer.Promise_all.
  destruct (Syncer.settleAll env _ _ _ _) as [fl' w1] eqn:Hall.
  destruct (Syncer.rejection fl') eqn:Hrej; [discriminate|]. intros [= <- _].
  rewrite last_lookup in Hlast.
  assert (Hdrained : Syncer.pending fl' = []).
  { eapply settleAll_drains; [|exact Hall|exact Hrej]. simpl. apply length_imap. }
  eapply settleAll_ok in Hall; [|exact Hlast|].
  - destruct Hall as (Hlen & _ & [[k Hk]|[[e He]|(r & Hslot & Hr)]]).
    + rewrite Hdrained in Hk. discriminate.
    + congruence.
    + exists r. split; [done|].
      rewrite <- Hlen, <- last_lookup in Hslot.
      apply last_Some in Hslot as [l' ->].
      rewrite omap_app. simpl. apply last_snoc.
  - repeat split; simpl.
    + apply length_replicate.
    + intros k i' ev'. rewrite list_lookup_imap.
      destruct (events !! k) eqn:Hk; simpl; [|done]. by intros [= <- <-].
    + left. exists (pred (length events)). by rewrite list_lookup_imap, Hlast.
Qed.

Lemma forAwait_last env events lastw w results w' :
  last events = Some lastw ->
  Syncer.forAwait env events [] w = (Ok results, w') ->
  exists r, rangeValue env lastw = Some r /\ last results = Some r.
Proof.
  intros Hlast H. apply forAwait_values in H as (rs & -> & Hrs). simpl.
  apply last_Some in Hlast as [front ->].
  apply Forall2_app_inv_l in Hrs as (rs1 & rs2 & _ & Hrs2 & ->).
  apply Forall2_cons_inv_l in Hrs2 as (r & rs3 & Hr & Hnil & ->).
  apply Forall2_nil_inv_l in Hnil as ->.
  exists r. split; [done|apply last_snoc].
Qed.

(** The result of a round with a non-empty plan. *)
Lemma syncBlocks_last env ctx w ws lastw out w' :
  Syncer.createBatchEvents ctx = Ok ws ->
  last ws = Some lastw ->
  Syncer.syncBlocks env ctx w = (Ok out, w') ->
  exists r, rangeValue env lastw = Some r /\ out = Some r.
Proof.
  intros Hplan Hlast. unfold Syncer.syncBlocks. rewrite Hplan.
  assert (ws <> []) as Hne by (intros ->; discriminate).
  rewrite (bool_decide_eq_false_2 _ Hne), andb_false_r.
  destruct (IS_DEV_TEST env).
  - destruct (Syncer.forAwait env ws [] w) as [[results|e] w1] eqn:Hrun; [|discriminate].
    intros [= <- _]. eapply forAwait_last in Hrun as (r & Hr & Hl); [|done].
    exists r. by split.
  - destruct (Syncer.Promise_all env ws w) as [[results|e] w1] eqn:Hrun; [|discriminate].
    intros [= <- _]. eapply Promise_all_last in Hrun as (r & Hr & Hl); [|done].
    exists r. by split.
Qed.

(** With reliable collaborators every range returns, and so does every
    round whose plan can be built. *)
Lemma resume_returns env ev w :
  reliable env -> exists r w', Syncer.syncBlocksRange_resume env ev w = (Ok r, w').
Proof.
  intros (Hnode & Hins & Hpush & Hcommit).
  unfold Syncer.syncBlocksRange_resume, Syncer.syncBlocksRange_body.
  destruct (negb (IS_DEV_TEST env)); [|by eauto].
  destruct (Hnode (to ev - from ev) (from ev)) as [page ->].
  unfold transaction, Syncer.persist.
  specialize (Hins (blocks page) (blocksTable w)).
  destruct (insertMany env _ _) as [rows failed]. simpl in Hins. subst failed.
  rewrite Hpush, Hcommit. by eauto.
Qed.

Lemma forAwait_returns env events : forall acc w,
  reliable env -> exists results w', Syncer.forAwait env events acc w = (Ok results, w').
Proof.
  induction events as [|ev events IH]; simpl; intros acc w Hrel; [by eauto|].
  unfold Syncer.syncBlocksRange.
  destruct (resume_returns env ev (Syncer.syncBlocksRange_call env ev w) Hrel)
    as (r & w1 & ->).
  by apply IH.
Qed.

Lemma settleAll_no_rejection env n : forall j fl w,
  reliable env ->
  Syncer.rejection fl = None ->
  Syncer.rejection (Syncer.settleAll env n j fl w).1 = None.
Proof.
  induction n as [|n IH]; simpl; intros j fl w Hrel Hnone; [done|].
  rewrite Hnone.
  destruct (Syncer.settle env _ fl w) as [fl1 w1] eqn:Hs.
  apply IH; [done|]. revert Hs. unfold Syncer.settle.
  destruct (Syncer.pending fl !! _) as [[i ev]|]; [|by intros [= <- _]].
  destruct (resume_returns env ev w Hrel) as (r & w2 & ->).
  intros [= <- _]. simpl. by rewrite Hnone.
Qed.

Lemma syncBlocks_returns env ctx w ws :
  reliable env ->
  Syncer.createBatchEvents ctx = Ok ws ->
  exists out w', Syncer.syncBlocks env ctx w = (Ok out, w').
Proof.
  intros Hrel Hplan. unfold Syncer.syncBlocks. rewrite Hplan.
  destruct (_ && _); [by eauto|]. destruct (IS_DEV_TEST env).
  - destruct (forAwait_returns env ws [] w Hrel) as (results & w' & ->). by eauto.
  - unfold Syncer.Promise_all.
    pose proof (settleAll_no_rejection env (length ws) 0 (Syncer.inFlight ws)
                  (Syncer.callAll env ws w) Hrel eq_refl) as Hnone.
    destruct (Syncer.settleAll env _ _ _ _) as [fl' w1]. simpl in Hnone.
    rewrite Hnone. by eauto.
Qed.

Lemma createBatchEvents_genesis ctx :
  cursor ctx = 0 -> Syncer.getLastBlockHeight ctx = 0 -> 0 < offset ctx ->
  Syncer.createBatchEvents ctx = Ok [].
Proof.
  intros Hc Hh Hoff.
  assert (Hk : numberOfBatches ctx <= 0).
  { pose proof (numberOfBatches_ceil ctx Hoff) as Hceil. cbv zeta in Hceil.
    unfold limitEnd in Hceil. nia. }
  rewrite createBatchEvents_pages; [|lia|].
  - by replace (Z.to_nat (numberOfBatches ctx)) with 0%nat by lia.
  - assert (0 < Js.MAX_ARRAY_LENGTH) by reflexivity. lia.
Qed.

(** C2, as amended.  With the cursor and the head at 0 (and a positive
    offset) the plan is empty and [syncBlocks] returns no round result at
    all: it resolves to [undefined] and leaves the world as it was.  The
    machine stores that as [lastResult], keeps the cursor, and its guard
    [hasMoreEvents] reads the missing result as false. *)
Theorem syncBlocks_genesis (env : Env) (ctx : Context) (w : World) :
  cursor ctx = 0 ->
  Syncer.getLastBlockHeight ctx = 0 ->
  0 < offset ctx ->
  Syncer.createBatchEvents ctx = Ok []
  /\ Syncer.syncBlocks env ctx w = (Ok None, w)
  /\ let after := Machine.send (resting syncingBlocks ctx) (done_syncBlocks None) in
     lastResult (context after) = None
     /\ cursor (context after) = 0
     /\ Machine.hasMoreEvents (context after) = false.
Proof.
  intros Hc Hh Hoff.
  pose proof (createBatchEvents_genesis ctx Hc Hh Hoff) as Hplan.
  split; [exact Hplan|]. split.
  - unfold Syncer.syncBlocks. rewrite Hplan, Hc. simpl.
    destruct (IS_DEV_TEST env); [reflexivity|].
    unfold Syncer.Promise_all. simpl. destruct w; reflexivity.
  - simpl. rewrite Hc. repeat split.
Qed.

Lemma syncBlocks_genesis_witness :
  Syncer.createBatchEvents ctxGenesis = Ok []
  /\ Syncer.syncBlocks (sampleEnv false 0) ctxGenesis emptyWorld = (Ok None, emptyWorld)
  /\ let after := Machine.send (resting syncingBlocks ctxGenesis) (done_syncBlocks None) in
     lastResult (context after) = None
     /\ cursor (context after) = 0
     /\ Machine.hasMoreEvents (context after) = false.
Proof. apply (syncBlocks_genesis (sampleEnv false 0) ctxGenesis emptyWorld); reflexivity. Defined.

(** C2, as stated, fails: at cursor 0 and head 0 the round returns no
    result, so there is none with [hasBlocks = false]. *)
Lemma syncBlocks_genesis_no_result :
  cursor ctxGenesis = 0
  /\ Syncer.getLastBlockHeight ctxGenesis = 0
  /\ ~ exists r, (Syncer.syncBlocks (sampleEnv false 0) ctxGenesis emptyWorld).1 = Ok (Some r)
                 /\ hasBlocks r = false.
Proof.
  split; [reflexivity|]. split; [reflexivity|].
  intros (r & Hr & _). vm_compute in Hr. discriminate.
Qed.

(** C3.  A round with a non-empty plan that completes returns the value of
    the last window of the plan, whatever the order [order] in which the
    parallel ranges complete; the machine stores it as [lastResult] and
    moves the cursor to its [endCursor], or keeps the cursor when the
    [endCursor] is missing. *)
Theorem round_result_is_last_window (env : Env) (order : nat -> nat) (ctx : Context)
    (h : list Event) (w : World) (ws : list Window)
    (out : option EventsReturn) (w' : World) :
  Syncer.createBatchEvents ctx = Ok ws ->
  ws <> [] ->
  Syncer.syncBlocks (with_completion order env) ctx w = (Ok out, w') ->
  exists lastw r,
    last ws = Some lastw
    /\ rangeValue env lastw = Some r
    /\ out = Some r
    /\ let after :=
         Machine.step (with_completion order env)
           {| Machine.history := h;
              Machine.snapshot := resting syncingBlocks ctx;
              Machine.world := w |} in
       Machine.history after = h ++ [done_syncBlocks (Some r)]
       /\ lastResult (context (Machine.snapshot after)) = Some r
       /\ cursor (context (Machine.snapshot after))
          = match endCursor r with
            | Some c => c
            | None => cursor ctx
            end.
Proof.
  intros Hplan Hne Hround.
  destruct (last ws) as [lastw|] eqn:Hlast; [|by apply last_None in Hlast].
  destruct (syncBlocks_last _ _ _ _ _ _ _ Hplan Hlast Hround) as (r & Hr & ->).
  exists lastw, r. split; [done|]. split; [exact Hr|]. split; [done|].
  unfold Machine.step, Machine.invoke. simpl. rewrite Hround. simpl.
  repeat split.
Qed.

Lemma round_result_is_last_window_witness :
  exists out lastw r,
    last [ {| from := 0; to := 10 |}; {| from := 10; to := 20 |}; {| from := 20; to := 22 |} ]
    = Some lastw
    /\ rangeValue (sampleEnv false 22) lastw = Some r
    /\ out = Some r
    /\ let after :=
         Machine.step (with_completion (fun j => 1%nat) (sampleEnv false 22))
           {| Machine.history := [START_SYNC];
              Machine.snapshot := resting syncingBlocks ctxScenarioA;
              Machine.world := emptyWorld |} in
       Machine.history after = [START_SYNC] ++ [done_syncBlocks (Some r)]
       /\ lastResult (context (Machine.snapshot after)) = Some r
       /\ cursor (context (Machine.snapshot after))
          = match endCursor r with
            | Some c => c
            | None => cursor ctxScenarioA
            end.
Proof.
  eexists.
  eapply (round_result_is_last_window (sampleEnv false 22) (fun j => 1%nat) ctxScenarioA
            [START_SYNC] emptyWorld).
  - vm_compute. reflexivity.
  - discriminate.
  - vm_compute. reflexivity.
Defined.

Example scenario_A_round :
  (Syncer.syncBlocks (with_completion (fun j => 1%nat) (sampleEnv false 22))
     ctxScenarioA emptyWorld).1
  = Ok (Some {| endCursor := Some 22; hasBlocks := true |}).
Proof. vm_compute. reflexivity. Qed.

(** ** The range syncer *)

Lemma syncBlocksRange_call_table env ev w :
  blocksTable (Syncer.syncBlocksRange_call env ev w) = blocksTable w.
Proof. unfold Syncer.syncBlocksRange_call. by destruct (negb (IS_DEV_TEST env)). Qed.

Lemma syncBlocksRange_call_queue env ev w :
  syncTransactionsQueue (Syncer.syncBlocksRange_call env ev w) = syncTransactionsQueue w.
Proof. unfold Syncer.syncBlocksRange_call. by destruct (negb (IS_DEV_TEST env)). Qed.

(** What a range leaves behind outside the test mode. *)
Lemma syncBlocksRange_outcome env ev w res w' :
  IS_DEV_TEST env = false ->
  Syncer.syncBlocksRange env ev w = (res, w') ->
  match res with
  | Ok r =>
      exists page,
        blocksFromNode env (to ev - from ev) (from ev) = Ok page
        /\ insertMany env (blocks page) (blocksTable w) = (blocksTable w', None)
        /\ commit env (blocksTable w') = None
        /\ syncTransactionsQueue w' = syncTransactionsQueue w ++ [omap id (blocks page)]
        /\ r = {| endCursor := pageEndCursor page;
                  hasBlocks := (0 <? length (blocks page))%nat |}
  | Throw e =>
      blocksTable w' = blocksTable w
      /\ (syncTransactionsQueue w' = syncTransactionsQueue w
          \/ exists page rows,
               blocksFromNode env (to ev - from ev) (from ev) = Ok page
               /\ insertMany env (blocks page) (blocksTable w) = (rows, None)
               /\ queuePush env (omap id (blocks page)) = None
               /\ commit env rows = Some e)
  end.
Proof.
  intros Hdev.
  unfold Syncer.syncBlocksRange, Syncer.syncBlocksRange_resume, Syncer.syncBlocksRange_body.
  pose proof (syncBlocksRange_call_table env ev w) as Ht.
  pose proof (syncBlocksRange_call_queue env ev w) as Hq.
  destruct (Syncer.syncBlocksRange_call env ev w) as [t0 q0 n0 c0 r0].
  simpl in Ht, Hq. subst.
  rewrite Hdev. simpl.
  destruct (blocksFromNode env _ _) as [page|e] eqn:Hnode.
  2:{ intros [= <- <-]. simpl. auto. }
  unfold transaction, Syncer.persist. simpl.
  destruct (insertMany env _ _) as [rows [e|]] eqn:Hins.
  { intros [= <- <-]. simpl. auto. }
  destruct (queuePush env _) as [e|] eqn:Hpush.
  { intros [= <- <-]. simpl. auto. }
  simpl. destruct (commit env rows) as [e|] eqn:Hcommit.
  - intros [= <- <-]. simpl. split; [done|]. right. by exists page, rows.
  - intros [= <- <-]. simpl. exists page. by repeat split.
Qed.

(** An actor that throws stops the machine where it is; the context, and
    the cursor in it, stay as they were. *)
Lemma step_syncBlocks_throws env h ctx w e w' :
  Syncer.syncBlocks env ctx w = (Throw e, w') ->
  Machine.snapshot
    (Machine.step env {| Machine.history := h;
                         Machine.snapshot := resting syncingBlocks ctx;
                         Machine.world := w |})
  = stopped syncingBlocks ctx e.
Proof. intros H. unfold Machine.step, Machine.invoke. simpl. by rewrite H. Qed.

Lemma step_syncMissingBlocks_throws env h ctx w e w' :
  Syncer.syncMissingBlocks env ctx w = (Throw e, w') ->
  Machine.snapshot
    (Machine.step env {| Machine.history := h;
                         Machine.snapshot := resting syncingMissingBlocks ctx;
                         Machine.world := w |})
  = stopped syncingMissingBlocks ctx e.
Proof. intros H. unfold Machine.step, Machine.invoke. simpl. by rewrite H. Qed.

(** C4, as amended.  Outside the test mode a range that returns has
    inserted the fetched blocks and pushed exactly one work item, holding
    the non-null blocks, in a transaction that committed.  A range that
    fails leaves the table as it was, with no part of the batch in it, and
    leaves the queue as it was unless the failure is that of the commit.  A
    round or a catch-up that fails stops the machine with its context, and
    so its cursor, unchanged. *)
Theorem syncBlocksRange_transaction (env : Env) (ev : Window) (w : World) :
  IS_DEV_TEST env = false ->
  (forall res w',
     Syncer.syncBlocksRange env ev w = (res, w') ->
     match res with
     | Ok r =>
         exists page,
           blocksFromNode env (to ev - from ev) (from ev) = Ok page
           /\ insertMany env (blocks page) (blocksTable w) = (blocksTable w', None)
           /\ commit env (blocksTable w') = None
           /\ syncTransactionsQueue w' = syncTransactionsQueue w ++ [omap id (blocks page)]
           /\ r = {| endCursor := pageEndCursor page;
                     hasBlocks := (0 <? length (blocks page))%nat |}
     | Throw e =>
         blocksTable w' = blocksTable w
         /\ (syncTransactionsQueue w' = syncTransactionsQueue w
             \/ exists page rows,
                  blocksFromNode env (to ev - from ev) (from ev) = Ok page
                  /\ insertMany env (blocks page) (blocksTable w) = (rows, None)
                  /\ queuePush env (omap id (blocks page)) = None
                  /\ commit env rows = Some e)
     end)
  /\ (forall h ctx e w',
        Syncer.syncBlocks env ctx w = (Throw e, w') ->
        Machine.snapshot
          (Machine.step env {| Machine.history := h;
                               Machine.snapshot := resting syncingBlocks ctx;
                               Machine.world := w |})
        = stopped syncingBlocks ctx e)
  /\ (forall h ctx e w',
        Syncer.syncMissingBlocks env ctx w = (Throw e, w') ->
        Machine.snapshot
          (Machine.step env {| Machine.history := h;
                               Machine.snapshot := resting syncingMissingBlocks ctx;
                               Machine.world := w |})
        = stopped syncingMissingBlocks ctx e).
Proof.
  intros Hdev. split; [|split].
  - intros res w'. by apply syncBlocksRange_outcome.
  - intros h ctx e w'. apply step_syncBlocks_throws.
  - intros h ctx e w'. apply step_syncMissingBlocks_throws.
Qed.

(** A store that fails after a partial write: nothing of the batch is in
    the table, nothing is queued. *)
Example insert_failure_rolls_back :
  exists w',
    Syncer.syncBlocksRange envInsertFails window_20_22 emptyWorld
    = (Throw (Rejected BlockStore "insert failed"), w')
    /\ blocksTable w' = [] /\ syncTransactionsQueue w' = [].
Proof. eexists. split; [vm_compute; reflexivity|]. by split. Qed.

(** A commit that fails: the table is rolled back, the work item pushed
    before the commit stays in the queue. *)
Example commit_failure_keeps_enqueue :
  exists w',
    Syncer.syncBlocksRange envCommitFails window_20_22 emptyWorld
    = (Throw (Rejected BlockStore "commit failed"), w')
    /\ blocksTable w' = []
    /\ syncTransactionsQueue w' = [[blockAt 20; blockAt 21]].
Proof. eexists. split; [vm_compute; reflexivity|]. by split. Qed.

Lemma syncBlocksRange_transaction_witness :
  exists page r,
    (Syncer.syncBlocksRange (sampleEnv false 22) window_20_22 emptyWorld).1 = Ok r
    /\ blocksFromNode (sampleEnv false 22) 2 20 = Ok page
    /\ blocksTable (Syncer.syncBlocksRange (sampleEnv false 22) window_20_22 emptyWorld).2
       = [blockAt 20; blockAt 21]
    /\ syncTransactionsQueue
         (Syncer.syncBlocksRange (sampleEnv false 22) window_20_22 emptyWorld).2
       = [] ++ [omap id (blocks page)]
    /\ r = {| endCursor := Some 22; hasBlocks := true |}.
Proof.
  destruct (Syncer.syncBlocksRange (sampleEnv false 22) window_20_22 emptyWorld)
    as [res w'] eqn:E.
  pose proof (proj1 (syncBlocksRange_transaction (sampleEnv false 22) window_20_22
                       emptyWorld eq_refl) res w' E) as H.
  vm_compute in E. injection E as <- <-.
  destruct H as (page & Hnode & _ & _ & Hqueue & Hr).
  exists page. eexists. split; [reflexivity|]. split; [exact Hnode|].
  split; [reflexivity|]. split; [exact Hqueue|]. reflexivity.
Defined.

(** C4, as stated, fails: in the test mode a range inserts nothing and
    pushes nothing, although the node holds blocks in the window. *)
Lemma syncBlocksRange_dev_persists_nothing :
  exists r w',
    Syncer.syncBlocksRange (sampleEnv true 22) window_20_22 emptyWorld = (Ok r, w')
    /\ blocksTable w' = []
    /\ ~ exists item, syncTransactionsQueue w' = syncTransactionsQueue emptyWorld ++ [item].
Proof.
  do 2 eexists. split; [vm_compute; reflexivity|]. split; [reflexivity|].
  intros [item Hitem]. discriminate.
Qed.

(** ** The test mode *)

Lemma syncBlocksRange_dev env ev w :
  IS_DEV_TEST env = true ->
  Syncer.syncBlocksRange env ev w
  = (Ok (devValue ev),
     record_range (Settled ev)
       (console_log (LogSyncing (from ev) (to ev)) (record_range (Called ev) w))).
Proof.
  intros Hdev.
  unfold Syncer.syncBlocksRange, Syncer.syncBlocksRange_resume, Syncer.syncBlocksRange_body,
    Syncer.syncBlocksRange_call.
  by rewrite Hdev.
Qed.

Lemma forAwait_dev env events : forall acc w,
  IS_DEV_TEST env = true ->
  Syncer.forAwait env events acc w = (Ok (acc ++ map devValue events), runInTurn events w).
Proof.
  induction events as [|ev events IH]; simpl; intros acc w Hdev.
  - by rewrite app_nil_r.
  - rewrite syncBlocksRange_dev by done. rewrite IH by done.
    by rewrite <- app_assoc.
Qed.

(** What a plan run in turn leaves in the world. *)
Lemma runInTurn_world events : forall w,
  rangeTrace (runInTurn events w) = rangeTrace w ++ inTurn events
  /\ console (runInTurn events w)
     = console w ++ map (fun ev => LogSyncing (from ev) (to ev)) events
  /\ nodeRequests (runInTurn events w) = nodeRequests w
  /\ blocksTable (runInTurn events w) = blocksTable w
  /\ syncTransactionsQueue (runInTurn events w) = syncTransactionsQueue w.
Proof.
  unfold runInTurn, inTurn.
  induction events as [|ev events IH]; simpl; intros w.
  - by rewrite !app_nil_r.
  - destruct (IH (record_range (Settled ev)
                    (console_log (LogSyncing (from ev) (to ev))
                       (record_range (Called ev) w)))) as (-> & -> & -> & -> & ->).
    simpl. by rewrite <- !app_assoc.
Qed.

(** C9.  With [IS_DEV_TEST] set, a range only writes its log line: it
    sends no request to the node, inserts nothing, pushes nothing, and
    returns [{ endCursor: to, hasBlocks: true }].  A round then runs its
    ranges strictly one after the other, in the order of the plan: in the
    trace of the round every range is called and settles before the next
    range is called, whatever completion order the environment would give
    to parallel ranges. *)
Theorem dev_test_mode (env : Env) :
  IS_DEV_TEST env = true ->
  (forall ev w,
     (Syncer.syncBlocksRange env ev w).1
     = Ok {| endCursor := Some (to ev); hasBlocks := true |}
     /\ console (Syncer.syncBlocksRange env ev w).2
        = console w ++ [LogSyncing (from ev) (to ev)]
     /\ nodeRequests (Syncer.syncBlocksRange env ev w).2 = nodeRequests w
     /\ blocksTable (Syncer.syncBlocksRange env ev w).2 = blocksTable w
     /\ syncTransactionsQueue (Syncer.syncBlocksRange env ev w).2 = syncTransactionsQueue w)
  /\ (forall ctx w events order,
        Syncer.createBatchEvents ctx = Ok events ->
        ((0 <? cursor ctx) && bool_decide (events = [])) = false ->
        (Syncer.syncBlocks (with_completion order env) ctx w).1
        = Ok (last (map devValue events))
        /\ rangeTrace (Syncer.syncBlocks (with_completion order env) ctx w).2
           = rangeTrace w ++ inTurn events
        /\ console (Syncer.syncBlocks (with_completion order env) ctx w).2
           = console w ++ map (fun ev => LogSyncing (from ev) (to ev)) events
        /\ nodeRequests (Syncer.syncBlocks (with_completion order env) ctx w).2
           = nodeRequests w
        /\ blocksTable (Syncer.syncBlocks (with_completion order env) ctx w).2
           = blocksTable w
        /\ syncTransactionsQueue (Syncer.syncBlocks (with_completion order env) ctx w).2
           = syncTransactionsQueue w).
Proof.
  intros Hdev. split.
  - intros ev w. rewrite syncBlocksRange_dev by done. by repeat split.
  - intros ctx w events order Hplan Hsome.
    assert (Hround : Syncer.syncBlocks (with_completion order env) ctx w
                     = (Ok (last (map devValue events)), runInTurn events w)).
    { unfold Syncer.syncBlocks. rewrite Hplan, Hsome. simpl. rewrite Hdev.
      by rewrite (forAwait_dev (with_completion order env) events [] w Hdev). }
    rewrite Hround. simpl. split; [done|]. apply runInTurn_world.
Qed.

Lemma dev_test_mode_witness :
  (Syncer.syncBlocksRange (sampleEnv true 22) window_20_22 emptyWorld).1
  = Ok {| endCursor := Some 22; hasBlocks := true |}
  /\ (Syncer.syncBlocks (with_completion (fun j => 1%nat) (sampleEnv true 22))
        ctxScenarioA emptyWorld).1
     = Ok (Some {| endCursor := Some 22; hasBlocks := true |})
  /\ rangeTrace (Syncer.syncBlocks (with_completion (fun j => 1%nat) (sampleEnv true 22))
                   ctxScenarioA emptyWorld).2
     = [ Called {| from := 0; to := 10 |}; Settled {| from := 0; to := 10 |};
         Called {| from := 10; to := 20 |}; Settled {| from := 10; to := 20 |};
         Called {| from := 20; to := 22 |}; Settled {| from := 20; to := 22 |} ].
Proof.
  destruct (dev_test_mode (sampleEnv true 22) eq_refl) as [Hrange Hround].
  split.
  - exact (proj1 (Hrange window_20_22 emptyWorld)).
  - destruct (Hround ctxScenarioA emptyWorld planScenarioA (fun j => 1%nat) eq_refl eq_refl)
      as (Hvalue & Htrace & _).
    split; [exact Hvalue|exact Htrace].
Defined.

(** Outside the test mode the trace of the same round differs: every range
    is called before any range settles. *)
Example parallel_round_trace :
  rangeTrace (Syncer.syncBlocks (sampleEnv false 22) ctxScenarioA emptyWorld).2
  = [ Called {| from := 0; to := 10 |}; Called {| from := 10; to := 20 |};
      Called {| from := 20; to := 22 |};
      Settled {| from := 0; to := 10 |}; Settled {| from := 20; to := 22 |};
      Settled {| from := 10; to := 20 |} ].
Proof. vm_compute. reflexivity. Qed.

(** ** The state machine *)

Lemma lastRound_snoc h ev :
  lastRound (h ++ [ev])
  = match ev with
    | done_syncBlocks out => Some out
    | _ => lastRound h
    end.
Proof.
  induction h as [|ev0 h IH]; simpl.
  - by destruct ev.
  - rewrite IH. destruct ev; try reflexivity. 
Qed.

Lemma hasMoreEvents_false_noBlocks out ctx :
  Machine.hasMoreEvents (Machine.assign_lastResult out ctx) = false -> noBlocks out.
Proof. unfold Machine.hasMoreEvents, noBlocks. simpl. by destruct out. Qed.

(** One step keeps the invariant of the watch loop. *)
Lemma step_watch_inv env r : watch_inv r -> watch_inv (Machine.step env r).
Proof.
  destruct r as [h [s ctx st] w]. unfold watch_inv, caughtUp, Machine.step. simpl.
  destruct st as [|e]; [|done].
  unfold Machine.invoke. simpl. destruct s; simpl; try done.
  - (* gettingLastBlock *)
    unfold Syncer.getLatestBlock. by destruct (latestBlockFromNode env).
  - (* syncingBlocks *)
    destruct (Syncer.syncBlocks env ctx w) as [[out|e] w']; simpl; [|done].
    intros _. destruct (Machine.hasMoreEvents _) eqn:Hmore; simpl; [done|].
    apply hasMoreEvents_false_noBlocks in Hmore.
    assert (Hw : Machine.needToWatch (Machine.assign_lastResult out ctx)
                 = Machine.needToWatch ctx) by reflexivity.
    rewrite Hw. destruct (Machine.needToWatch ctx) eqn:Hwatch; simpl.
    + exists out. by rewrite lastRound_snoc.
    + split; [|done]. exists out. by rewrite lastRound_snoc.
  - (* waiting *)
    intros [out Hout]. exists out. by rewrite lastRound_snoc.
  - (* syncingMissingBlocks *)
    destruct (Syncer.syncMissingBlocks env ctx w) as [[out|e] w']; simpl;
      intros [out0 Hout]; exists out0; by rewrite lastRound_snoc.
  - (* resettingLastBlock *)
    unfold Syncer.getLatestBlock. destruct (latestBlockFromNode env); simpl;
      intros [out0 Hout]; exists out0; by rewrite lastRound_snoc.
Qed.

Lemma run_watch_inv envs : forall r, watch_inv r -> watch_inv (Machine.run envs r).
Proof.
  unfold Machine.run. induction envs as [|env envs IH]; simpl; intros r Hr.
  - done.
  - apply IH. by apply step_watch_inv.
Qed.

(** The handler leaves the actor in [gettingLastBlock]. *)
Lemma handler_actor env data w r0 :
  actor (syncBlocks env data w) = Some r0 ->
  value (Machine.snapshot r0) = gettingLastBlock
  /\ status (Machine.snapshot r0) = active
  /\ returned (syncBlocks env data w) = Ok tt.
Proof.
  unfold syncBlocks. destruct (Machine.initialContext env data); simpl.
  - by intros [= <-].
  - discriminate.
Qed.

(** A round that finds nothing to plan above a positive cursor. *)
Lemma syncBlocks_all_synced env ctx w :
  0 < cursor ctx ->
  Syncer.createBatchEvents ctx = Ok [] ->
  Syncer.syncBlocks env ctx w
  = (Ok (Some {| endCursor := Some (cursor ctx); hasBlocks := false |}),
     console_log LogAllSynced w).
Proof.
  intros Hc Hplan. unfold Syncer.syncBlocks. rewrite Hplan.
  by destruct (Z.ltb_spec 0 (cursor ctx)); [|lia].
Qed.

(** C5, as amended.  A machine started by the handler rests in [waiting]
    only if its last round reported [hasBlocks = false] or returned no
    result, and in [idle] only if moreover watch mode is off.  A round with
    a positive cursor and an empty plan is not an error: it returns
    [{ endCursor: cursor, hasBlocks: false }], logs that all blocks are
    synced, and the machine goes on, cursor unchanged, to [waiting] in watch
    mode and to [idle] otherwise. *)
Theorem waiting_and_idle_only_when_caught_up
    (env0 : Env) (data : Input) (w0 : World) (r0 : Machine.Run) (envs : list Env) :
  actor (syncBlocks env0 data w0) = Some r0 ->
  (value (Machine.snapshot (Machine.run envs r0)) = waiting ->
   exists out, lastRound (Machine.history (Machine.run envs r0)) = Some out /\ noBlocks out)
  /\ (value (Machine.snapshot (Machine.run envs r0)) = idle ->
      exists out,
        lastRound (Machine.history (Machine.run envs r0)) = Some out
        /\ noBlocks out
        /\ Machine.needToWatch (context (Machine.snapshot (Machine.run envs r0))) = false)
  /\ (forall env h ctx w,
        0 < cursor ctx ->
        Syncer.createBatchEvents ctx = Ok [] ->
        Syncer.syncBlocks env ctx w
        = (Ok (Some {| endCursor := Some (cursor ctx); hasBlocks := false |}),
           console_log LogAllSynced w)
        /\ Machine.snapshot
             (Machine.step env {| Machine.history := h;
                                  Machine.snapshot := resting syncingBlocks ctx;
                                  Machine.world := w |})
           = resting (if Machine.needToWatch ctx then waiting else idle)
               (Machine.assign_lastResult
                  (Some {| endCursor := Some (cursor ctx); hasBlocks := false |}) ctx)
        /\ cursor (Machine.assign_lastResult
                     (Some {| endCursor := Some (cursor ctx); hasBlocks := false |}) ctx)
           = cursor ctx).
Proof.
  intros Hstart.
  assert (Hinv : watch_inv (Machine.run envs r0)).
  { apply run_watch_inv. unfold watch_inv.
    by destruct (handler_actor _ _ _ _ Hstart) as (-> & _). }
  unfold watch_inv in Hinv. split; [|split].
  - intros Hv. rewrite Hv in Hinv. exact Hinv.
  - intros Hv. rewrite Hv in Hinv. destruct Hinv as [(out & Hlast & Hno) Hwatch].
    by exists out.
  - intros env h ctx w Hc Hplan.
    pose proof (syncBlocks_all_synced env ctx w Hc Hplan) as Hround.
    split; [exact Hround|]. split; [|reflexivity].
    unfold Machine.step, Machine.invoke. simpl. rewrite Hround. simpl.
    unfold Machine.send, resting, Machine.always, Machine.needToWatch. simpl.
    by destruct (Js.Boolean (watch ctx)).
Qed.

Lemma waiting_and_idle_only_when_caught_up_witness :
  exists r,
    runFrom (replicate 4 (sampleEnv false 22)) (sampleEnv false 22) (inputOnce None) = Some r
    /\ value (Machine.snapshot r) = idle
    /\ exists out,
         lastRound (Machine.history r) = Some out
         /\ noBlocks out
         /\ Machine.needToWatch (context (Machine.snapshot r)) = false.
Proof.
  eexists. split; [reflexivity|]. split; [reflexivity|].
  apply (proj1 (proj2 (waiting_and_idle_only_when_caught_up
                         (sampleEnv false 22) (inputOnce None) emptyWorld _
                         (replicate 4 (sampleEnv false 22)) eq_refl))).
  reflexivity.
Defined.

(** C5, as stated, fails: started in watch mode at cursor 0 on an empty
    chain, the machine rests in [waiting] after a round that returned no
    result, hence none with [hasBlocks = false]. *)
Lemma waiting_without_reported_result :
  exists r,
    runFrom [sampleEnv false 0; sampleEnv false 0] (sampleEnv false 0) (inputWatch None) = Some r
    /\ value (Machine.snapshot r) = waiting
    /\ lastRound (Machine.history r) = Some None
    /\ ~ exists out, lastRound (Machine.history r) = Some out /\ reportedNoBlocks out.
Proof.
  eexists. split; [reflexivity|]. split; [reflexivity|]. split; [reflexivity|].
  intros (out & Hout & r & -> & _). vm_compute in Hout. discriminate.
Qed.

(** ** The cursor *)

(** With a positive offset every window of a plan starts at or above the
    cursor and is not empty. *)
Lemma plan_windows ctx ws :
  0 < offset ctx ->
  Syncer.createBatchEvents ctx = Ok ws ->
  Forall (fun w => cursor ctx <= from w < to w) ws.
Proof.
  intros Hoff. pose proof (numberOfBatches_ceil ctx Hoff) as Hceil. cbv zeta in Hceil.
  unfold Syncer.createBatchEvents, Js.ceil_div.
  destruct (Z.eqb_spec (offset ctx) 0) as [|_]; [lia|].
  fold (numberOfBatches ctx). unfold Js.Array_from_length_map, Js.ToLength.
  destruct (_ <? _); [discriminate|]. intros [= <-].
  apply Forall_forall. intros w Hw. apply list_elem_of_In, in_map_iff in Hw.
  destruct Hw as (page & <- & Hpage). apply in_seq in Hpage.
  rewrite batchEvent_from, batchEvent_to. unfold limitEnd in Hceil.
  assert (Z.of_nat page <= numberOfBatches ctx - 1) by lia. nia.
Qed.

(** The [endCursor] of a round is not below the cursor. *)
Lemma syncBlocks_progress env ctx w out w' :
  0 < offset ctx ->
  reports_progress env ->
  Syncer.syncBlocks env ctx w = (Ok out, w') ->
  cursor ctx <= default (cursor ctx) (out ≫= endCursor).
Proof.
  intros Hoff Hnode Hround.
  destruct (Syncer.createBatchEvents ctx) as [ws|e] eqn:Hplan.
  2:{ unfold Syncer.syncBlocks in Hround. rewrite Hplan in Hround. discriminate. }
  destruct (last ws) as [lastw|] eqn:Hlast.
  - destruct (syncBlocks_last _ _ _ _ _ _ _ Hplan Hlast Hround) as (r & Hr & ->).
    simpl. destruct (endCursor r) as [c|] eqn:Hc; simpl; [|lia].
    pose proof (plan_windows ctx ws Hoff Hplan) as Hws.
    apply last_Some in Hlast as [front ->].
    apply Forall_app in Hws as [_ Hw]. apply Forall_cons in Hw as [Hw _].
    specialize (Hnode lastw r c ltac:(lia) Hr Hc). lia.
  - apply last_None in Hlast as ->.
    unfold Syncer.syncBlocks in Hround. rewrite Hplan in Hround. simpl in Hround.
    destruct (0 <? cursor ctx).
    + injection Hround as <- _. simpl. lia.
    + destruct (IS_DEV_TEST env); injection Hround as <- _; simpl; lia.
Qed.

Lemma syncMissingBlocks_progress env ctx w r w' :
  reports_progress env ->
  head_not_below env ctx ->
  Syncer.syncMissingBlocks env ctx w = (Ok r, w') ->
  cursor ctx <= default (cursor ctx) (endCursor r).
Proof.
  intros Hnode Hhead. unfold Syncer.syncMissingBlocks, Syncer.getLatestBlock.
  destruct (latestBlockFromNode env) as [b|e] eqn:Hb; [|discriminate].
  unfold Syncer.syncBlocksRange. intros Hrange. apply resume_value in Hrange.
  destruct (endCursor r) as [c|] eqn:Hc; simpl; [|lia].
  pose proof (Hnode {| from := cursor ctx; to := height (header b) |} r c) as Hprogress.
  simpl in Hprogress. apply Hprogress; [by apply Hhead|exact Hrange|exact Hc].
Qed.

(** C7, as amended.  With a positive offset, a step of the machine does not
    lower the cursor provided that the [endCursor] reported for a window
    that is not reversed is never below its start, and that the head fetched
    by [syncingMissingBlocks] is not below the cursor.  Only the steps of
    [syncingBlocks] and [syncingMissingBlocks] can change the cursor; the
    offset never changes. *)
Theorem cursor_never_decreases (env : Env) (r0 : Machine.Run) :
  0 < offset (context (Machine.snapshot r0)) ->
  reports_progress env ->
  (value (Machine.snapshot r0) = syncingMissingBlocks ->
   head_not_below env (context (Machine.snapshot r0))) ->
  cursor (context (Machine.snapshot r0))
  <= cursor (context (Machine.snapshot (Machine.step env r0)))
  /\ offset (context (Machine.snapshot (Machine.step env r0)))
     = offset (context (Machine.snapshot r0))
  /\ (value (Machine.snapshot r0) <> syncingBlocks ->
      value (Machine.snapshot r0) <> syncingMissingBlocks ->
      cursor (context (Machine.snapshot (Machine.step env r0)))
      = cursor (context (Machine.snapshot r0))).
Proof.
  destruct r0 as [h [s ctx st] w]. simpl. intros Hoff Hnode Hhead.
  unfold Machine.step. simpl. destruct st as [|e]; [|simpl; by repeat split; try lia].
  unfold Machine.invoke. simpl. destruct s; simpl; try (repeat split; try lia; done).
  - unfold Syncer.getLatestBlock. destruct (latestBlockFromNode env); simpl;
      repeat split; lia.
  - destruct (Syncer.syncBlocks env ctx w) as [[out|e] w'] eqn:Hround; simpl.
    + split; [by eapply syncBlocks_progress|]. by split.
    + split; [lia|]. by split.
  - destruct (Syncer.syncMissingBlocks env ctx w) as [[r|e] w'] eqn:Hround; simpl.
    + split; [eapply syncMissingBlocks_progress; eauto|]. by split.
    + split; [lia|]. by split.
  - unfold Syncer.getLatestBlock. destruct (latestBlockFromNode env); simpl;
      repeat split; lia.
Qed.

Lemma sampleEnv_reports_progress dev head : reports_progress (sampleEnv dev head).
Proof.
  intros ev r c Hle. unfold rangeValue. destruct dev; simpl.
  - intros [= <-]. simpl. intros [= <-]. exact Hle.
  - intros [= <-]. simpl. intros [= <-]. lia.
Qed.

Lemma cursor_never_decreases_witness :
  0 <= cursor (context (Machine.snapshot (Machine.step (sampleEnv false 22) runScenarioA)))
  /\ offset (context (Machine.snapshot (Machine.step (sampleEnv false 22) runScenarioA))) = 10
  /\ (syncingBlocks <> syncingBlocks ->
      syncingBlocks <> syncingMissingBlocks ->
      cursor (context (Machine.snapshot (Machine.step (sampleEnv false 22) runScenarioA))) = 0).
Proof.
  apply (cursor_never_decreases (sampleEnv false 22) runScenarioA).
  - reflexivity.
  - apply sampleEnv_reports_progress.
  - discriminate.
Defined.

Example scenario_A_cursor :
  cursor (context (Machine.snapshot (Machine.step (sampleEnv false 22) runScenarioA))) = 22.
Proof. vm_compute. reflexivity. Qed.

(** C7, as stated, fails: started in the test mode with cursor 100 on a
    chain whose head is 50, the machine reaches [syncingMissingBlocks] with
    cursor 100, and the assignment of that state sets the cursor to 50. *)
Lemma cursor_lowered_by_catch_up :
  exists r,
    runFrom (replicate 3 (sampleEnv true 50)) (sampleEnv true 50) (inputWatch (Some 100))
    = Some r
    /\ value (Machine.snapshot r) = syncingMissingBlocks
    /\ cursor (context (Machine.snapshot r)) = 100
    /\ cursor (context (Machine.snapshot (Machine.step (sampleEnv true 50) r))) = 50.
Proof. eexists. split; [reflexivity|]. by repeat split. Qed.

(** ** The handler *)

(** The handler never throws and never logs: a failure while the actor is
    created stays in the actor, which does not run. *)
Lemma handler_always_fulfils env data w :
  returned (syncBlocks env data w) = Ok tt /\ logged (syncBlocks env data w) = w.
Proof. unfold syncBlocks. by destruct (Machine.initialContext env data). Qed.

Lemma handler_absorbs_failure env data w e :
  Machine.initialContext env data = Throw e ->
  syncBlocks env data w
  = {| returned := Ok tt; actor := None; logged := w; unhandled := Some e |}.
Proof. intros H. unfold syncBlocks. by rewrite H. Qed.

(** Once the actor exists the promise of the handler is fulfilled, whatever
    the invoked actors do afterwards. *)
Lemma handler_returns_before_actors env data w r0 :
  actor (syncBlocks env data w) = Some r0 ->
  returned (syncBlocks env data w) = Ok tt /\ logged (syncBlocks env data w) = w.
Proof.
  unfold syncBlocks. destruct (Machine.initialContext env data); simpl; [done|discriminate].
Qed.

(** C8: the code at the failing input.  The node is unreachable, so the
    invoked [getLatestBlock] fails.  The handler has already returned
    normally and logged nothing; the failure stops the machine with the bare
    error of the node, which is neither logged nor wrapped nor thrown to the
    caller of the handler. *)
Theorem actor_failure_escapes_handler :
  returned (syncBlocks envNodeDown (inputOnce None) emptyWorld) = Ok tt
  /\ console (logged (syncBlocks envNodeDown (inputOnce None) emptyWorld)) = []
  /\ exists r,
       runFrom [envNodeDown] envNodeDown (inputOnce None) = Some r
       /\ status (Machine.snapshot r) = error (Rejected NodeClient "unreachable")
       /\ console (Machine.world r) = [].
Proof.
  split; [reflexivity|]. split; [reflexivity|].
  eexists. split; [reflexivity|]. by split.
Qed.

(** ** The transaction repository *)

Section UpsertMany.

Context {GQLTransaction Columns TransactionEntity : Type}.
Variable toDBItem :
  GQLBlock -> GQLTransaction -> nat -> TransactionRepository.TransactionItem GQLTransaction Columns.
Variable create :
  TransactionRepository.TransactionItem GQLTransaction Columns -> TransactionEntity.

Local Abbreviation Item := (TransactionRepository.TransactionItem GQLTransaction Columns).
Local Abbreviation key := (TransactionRepository._id GQLTransaction Columns).
Local Abbreviation statement := (TransactionRepository.insertOnConflictDoUpdate GQLTransaction Columns).

(** [SET data = data] leaves the row as it is. *)
Lemma set_data_same (row : Item) :
  TransactionRepository.set_data _ _ (TransactionRepository.data _ _ row) row = row.
Proof. by destruct row. Qed.

(** A statement that succeeds proposed distinct keys, none touched before;
    it leaves the other keys alone and returns, for each proposed row, the
    row that the table then holds under its key. *)
Lemma statement_first (values : list Item) : forall touched tbl ret tbl' items,
  statement values touched tbl ret = Ok (tbl', items) ->
  NoDup (key <$> values)
  /\ (forall v, v ∈ values -> key v ∉ touched)
  /\ (forall k, k ∉ (key <$> values) -> tbl' !! k = tbl !! k)
  /\ exists rows, items = ret ++ rows
                  /\ Forall2 (fun v row => tbl' !! key v = Some row) values rows.
Proof.
  induction values as [|v values IH]; simpl; intros touched tbl ret tbl' items H.
  - injection H as <- <-. split; [constructor|]. split; [by intros v Hv%elem_of_nil|].
    split; [done|]. exists []. by rewrite app_nil_r.
  - case_bool_decide as Htouched; [discriminate|].
    apply IH in H as (Hnodup & Hfresh & Hother & rows & -> & Hrows).
    assert (Hv : key v ∉ (key <$> values)).
    { intros (v' & Heq & Hv')%list_elem_of_fmap. apply (Hfresh v' Hv').
      apply elem_of_union_l, elem_of_singleton. by symmetry. }
    split; [by constructor|]. split; [|split].
    + intros v' [->|Hv']%elem_of_cons; [done|].
      intros Hin. apply (Hfresh v' Hv'). by apply elem_of_union_r.
    + intros k Hk. apply not_elem_of_cons in Hk as [Hne Hk].
      rewrite (Hother k Hk). by rewrite lookup_insert_ne.
    + eexists (_ :: rows). split; [by rewrite <- app_assoc|].
      constructor; [|exact Hrows]. rewrite (Hother _ Hv). by rewrite lookup_insert_eq.
Qed.


(** [.values ([])] throws: there is no upsert of an empty list. *)
Lemma upsertMany_empty (tbl : gmap string Item) :
  TransactionRepository.upsertMany _ _ _ toDBItem create [] tbl
  = Throw (Rejected BlockStore "values() must be called with at least one value").
Proof. reflexivity. Qed.


End UpsertMany.



(** Two inserts with the same key make the statement fail. *)
Example upsertMany_same_key_twice :
  TransactionRepository.upsertMany _ _ _ sampleToDBItem id
    [(blockAt 1, "tx-a"); (blockAt 2, "tx-a")] ∅
  = Throw (Rejected BlockStore "ON CONFLICT DO UPDATE command cannot affect row a second time").
Proof. vm_compute. reflexivity. Qed.

(** * Further properties *)

(** ** The shape of a plan *)

Lemma createBatchEvents_Ok_inv ctx ws :
  offset ctx <> 0 ->
  Syncer.createBatchEvents ctx = Ok ws ->
  ws = map (fun page : nat => Syncer.batchEvent ctx (Z.of_nat page))
           (seq 0 (Z.to_nat (numberOfBatches ctx)))
  /\ numberOfBatches ctx <= Js.MAX_ARRAY_LENGTH.
Proof.
  intros Hoff. unfold Syncer.createBatchEvents, Js.ceil_div.
  destruct (Z.eqb_spec (offset ctx) 0) as [|_]; [contradiction|].
  fold (numberOfBatches ctx). unfold Js.Array_from_length_map, Js.ToLength.
  assert (Hsafe : 0 < Js.MAX_ARRAY_LENGTH < Js.MAX_SAFE_INTEGER) by (split; reflexivity).
  destruct (Z.ltb_spec Js.MAX_ARRAY_LENGTH
              (Z.min (Z.max (numberOfBatches ctx) 0) Js.MAX_SAFE_INTEGER)) as [|Hfit];
    [discriminate|].
  intros [= <-]. split; [|lia]. do 2 f_equal. lia.
Qed.

Lemma plan_lookup ctx ws (i : nat) :
  offset ctx <> 0 ->
  Syncer.createBatchEvents ctx = Ok ws ->
  ws !! i = if decide (i < length ws)%nat
            then Some (Syncer.batchEvent ctx (Z.of_nat i)) else None.
Proof.
  intros Hoff Hplan. destruct (createBatchEvents_Ok_inv ctx ws Hoff Hplan) as [-> _].
  rewrite length_map, length_seq. case_decide as Hi.
  - rewrite list_lookup_fmap, lookup_seq_lt by done. reflexivity.
  - apply lookup_ge_None. rewrite length_map, length_seq. lia.
Qed.

Lemma plan_length ctx ws :
  offset ctx <> 0 ->
  Syncer.createBatchEvents ctx = Ok ws ->
  length ws = Z.to_nat (numberOfBatches ctx).
Proof.
  intros Hoff Hplan. destruct (createBatchEvents_Ok_inv ctx ws Hoff Hplan) as [-> _].
  by rewrite length_map, length_seq.
Qed.

(** X1.  With a positive offset the plan is empty exactly when there is
    nothing between the cursor and the bound of the round: the limit is not
    positive or the head is not above the cursor. *)
Theorem plan_empty_iff (ctx : Context) (ws : list Window) :
  0 < offset ctx ->
  Syncer.createBatchEvents ctx = Ok ws ->
  ws = [] <-> (limit ctx <= 0 \/ Syncer.getLastBlockHeight ctx <= cursor ctx).
Proof.
  intros Hoff Hplan.
  pose proof (plan_length ctx ws ltac:(lia) Hplan) as Hlen.
  pose proof (numberOfBatches_ceil ctx Hoff) as Hceil. cbv zeta in Hceil.
  unfold limitEnd in Hceil. split.
  - intros ->. simpl in Hlen. assert (numberOfBatches ctx <= 0) by lia.
    assert (numberOfBatches ctx * offset ctx <= 0) by nia. lia.
  - intros Hnone. apply nil_length_inv. rewrite Hlen.
    assert ((numberOfBatches ctx - 1) * offset ctx < 0) by lia.
    assert (numberOfBatches ctx <= 0) by nia. lia.
Qed.

Lemma plan_empty_iff_witness :
  planScenarioA = [] <-> (25 <= 0 \/ 22 <= 0).
Proof. apply (plan_empty_iff ctxScenarioA planScenarioA); reflexivity. Defined.

(** X2.  With a positive offset a plan has [ceil (diff / offset)] windows
    (none when that is negative); every window holds at least one height
    and at most [offset], and every window but the last holds exactly
    [offset]. *)
Theorem plan_window_sizes (ctx : Context) (ws : list Window) :
  0 < offset ctx ->
  Syncer.createBatchEvents ctx = Ok ws ->
  Z.of_nat (length ws) = Z.max 0 (numberOfBatches ctx)
  /\ Forall (fun w => 0 < to w - from w <= offset ctx) ws
  /\ (forall (i : nat) w, ws !! i = Some w -> (S i < length ws)%nat ->
        to w - from w = offset ctx).
Proof.
  intros Hoff Hplan.
  pose proof (plan_length ctx ws ltac:(lia) Hplan) as Hlen.
  pose proof (numberOfBatches_ceil ctx Hoff) as Hceil. cbv zeta in Hceil.
  unfold limitEnd in Hceil.
  assert (Hat : forall (i : nat) w, ws !! i = Some w ->
            w = Syncer.batchEvent ctx (Z.of_nat i) /\ (i < length ws)%nat).
  { intros i w Hw. rewrite (plan_lookup ctx ws i ltac:(lia) Hplan) in Hw.
    case_decide; [|discriminate]. by injection Hw as <-. }
  split; [lia|]. split.
  - apply Forall_lookup. intros i w Hw. destruct (Hat i w Hw) as [-> Hi].
    rewrite batchEvent_from, batchEvent_to. nia.
  - intros i w Hw Hnext. destruct (Hat i w Hw) as [-> Hi].
    rewrite batchEvent_from, batchEvent_to. nia.
Qed.

Lemma plan_window_sizes_witness :
  Z.of_nat (length planScenarioA) = Z.max 0 (numberOfBatches ctxScenarioA)
  /\ Forall (fun w => 0 < to w - from w <= 10) planScenarioA
  /\ (forall (i : nat) w, planScenarioA !! i = Some w ->
        (S i < length planScenarioA)%nat -> to w - from w = 10).
Proof. apply (plan_window_sizes ctxScenarioA planScenarioA); reflexivity. Defined.

(** X3.  An offset of 0 with heights left to plan makes the length of the
    plan infinite: [createBatchEvents] throws a [RangeError], the round
    throws it before anything is logged or requested, and the machine stops
    in [syncingBlocks] with its context unchanged.  With nothing left to
    plan the offset 0 gives the empty plan. *)
Theorem offset_zero (env : Env) (ctx : Context) (h : list Event) (w : World) :
  offset ctx = 0 ->
  (cursor ctx < limitEnd ctx ->
   Syncer.createBatchEvents ctx = Throw RangeError
   /\ Syncer.syncBlocks env ctx w = (Throw RangeError, w)
   /\ Machine.step env (atRound h ctx w)
      = {| Machine.history := h ++ [error_actor RangeError];
           Machine.snapshot := stopped syncingBlocks ctx RangeError;
           Machine.world := w |})
  /\ (limitEnd ctx <= cursor ctx -> Syncer.createBatchEvents ctx = Ok []).
Proof.
  intros Hoff.
  assert (Hdiff : to (Syncer.getIdsRange ctx) - from (Syncer.getIdsRange ctx)
                  = limitEnd ctx - cursor ctx).
  { by rewrite getIdsRange_to, getIdsRange_from. }
  split.
  - intros Hwork.
    assert (Hplan : Syncer.createBatchEvents ctx = Throw RangeError).
    { unfold Syncer.createBatchEvents, Js.ceil_div. rewrite Hdiff, Hoff. simpl.
      by destruct (Z.ltb_spec 0 (limitEnd ctx - cursor ctx)); [|lia]. }
    assert (Hround : Syncer.syncBlocks env ctx w = (Throw RangeError, w)).
    { unfold Syncer.syncBlocks. by rewrite Hplan. }
    split; [exact Hplan|]. split; [exact Hround|].
    unfold Machine.step, Machine.invoke, atRound. simpl. by rewrite Hround.
  - intros Hnone. unfold Syncer.createBatchEvents, Js.ceil_div. rewrite Hdiff, Hoff. simpl.
    destruct (Z.ltb_spec 0 (limitEnd ctx - cursor ctx)); [lia|].
    by destruct (Z.ltb_spec (limitEnd ctx - cursor ctx) 0).
Qed.

Lemma offset_zero_witness :
  (cursor ctxOffsetZero < limitEnd ctxOffsetZero ->
   Syncer.createBatchEvents ctxOffsetZero = Throw RangeError
   /\ Syncer.syncBlocks (sampleEnv false 22) ctxOffsetZero emptyWorld
      = (Throw RangeError, emptyWorld)
   /\ Machine.step (sampleEnv false 22) (atRound [START_SYNC] ctxOffsetZero emptyWorld)
      = {| Machine.history := [START_SYNC] ++ [error_actor RangeError];
           Machine.snapshot := stopped syncingBlocks ctxOffsetZero RangeError;
           Machine.world := emptyWorld |})
  /\ (limitEnd ctxOffsetZero <= cursor ctxOffsetZero ->
      Syncer.createBatchEvents ctxOffsetZero = Ok []).
Proof.
  apply (offset_zero (sampleEnv false 22) ctxOffsetZero [START_SYNC] emptyWorld).
  reflexivity.
Defined.

(** ** What a round leaves in the world *)

Lemma body_keeps_log env ev w res w' :
  Syncer.syncBlocksRange_body env ev w = (res, w') ->
  nodeRequests w' = nodeRequests w /\ console w' = console w
  /\ rangeTrace w' = rangeTrace w.
Proof.
  unfold Syncer.syncBlocksRange_body. destruct (negb (IS_DEV_TEST env)).
  - destruct (blocksFromNode env _ _) as [page|e]; [|by intros [= <- <-]].
    unfold transaction, Syncer.persist.
    destruct (insertMany env _ _) as [trx' [e|]]; [by intros [= <- <-]|].
    destruct (queuePush env _); [by intros [= <- <-]|]. simpl.
    destruct (commit env _); by intros [= <- <-].
  - by intros [= <- <-].
Qed.

Lemma resume_keeps_log env ev w res w' :
  Syncer.syncBlocksRange_resume env ev w = (res, w') ->
  nodeRequests w' = nodeRequests w /\ console w' = console w.
Proof.
  unfold Syncer.syncBlocksRange_resume.
  destruct (Syncer.syncBlocksRange_body env ev w) as [res1 w1] eqn:Hbody.
  intros [= <- <-]. apply body_keeps_log in Hbody as (Hr & Hc & _). simpl. by split.
Qed.

Lemma settleAll_keeps_log env n : forall j fl w fl' w',
  Syncer.settleAll env n j fl w = (fl', w') ->
  nodeRequests w' = nodeRequests w /\ console w' = console w.
Proof.
  induction n as [|n IH]; simpl; intros j fl w fl' w' H.
  - by injection H as _ <-.
  - destruct (Syncer.rejection fl); [by injection H as _ <-|].
    destruct (Syncer.settle env _ fl w) as [fl1 w1] eqn:Hs.
    apply IH in H as [-> ->]. revert Hs. unfold Syncer.settle.
    destruct (Syncer.pending fl !! _) as [[i ev]|]; [|by intros [= _ <-]].
    destruct (Syncer.syncBlocksRange_resume env ev w) as [res w2] eqn:Hres.
    intros [= _ <-]. by eapply resume_keeps_log.
Qed.

Lemma callAll_log env events : forall w,
  nodeRequests (Syncer.callAll env events w)
  = nodeRequests w ++ (if IS_DEV_TEST env then [] else map requestOf events)
  /\ console (Syncer.callAll env events w)
     = console w ++ map (fun ev => LogSyncing (from ev) (to ev)) events.
Proof.
  unfold Syncer.callAll.
  induction events as [|ev events IH]; simpl; intros w.
  - destruct (IS_DEV_TEST env); by rewrite !app_nil_r.
  - destruct (IH (Syncer.syncBlocksRange_call env ev w)) as [-> ->].
    unfold Syncer.syncBlocksRange_call.
    destruct (IS_DEV_TEST env); simpl; by rewrite <- !app_assoc.
Qed.

(** X4.  Outside the test mode a round that runs its plan sends one
    request to the node for each window, [(to - from, from)], in the order
    of the plan, and writes one log line for each window in that order,
    whichever ranges fail afterwards and in whatever order they complete. *)
Theorem round_requests_follow_plan (env : Env) (ctx : Context) (w : World)
    (ws : list Window) :
  IS_DEV_TEST env = false ->
  Syncer.createBatchEvents ctx = Ok ws ->
  (0 <? cursor ctx) && bool_decide (ws = []) = false ->
  nodeRequests (Syncer.syncBlocks env ctx w).2 = nodeRequests w ++ map requestOf ws
  /\ console (Syncer.syncBlocks env ctx w).2
     = console w ++ map (fun ev => LogSyncing (from ev) (to ev)) ws.
Proof.
  intros Hdev Hplan Hguard. unfold Syncer.syncBlocks. rewrite Hplan, Hguard, Hdev.
  unfold Syncer.Promise_all.
  destruct (Syncer.settleAll env _ _ _ _) as [fl' w1] eqn:Hall.
  apply settleAll_keeps_log in Hall as [Hreq Hcon].
  destruct (callAll_log env ws w) as [Hreq0 Hcon0]. rewrite Hdev in Hreq0.
  assert (nodeRequests w1 = nodeRequests w ++ map requestOf ws) by congruence.
  assert (console w1 = console w ++ map (fun ev => LogSyncing (from ev) (to ev)) ws)
    by congruence.
  by destruct (Syncer.rejection fl').
Qed.

Lemma round_requests_follow_plan_witness :
  nodeRequests (Syncer.syncBlocks envGapAt10 ctxScenarioA emptyWorld).2
  = [] ++ map requestOf planScenarioA
  /\ console (Syncer.syncBlocks envGapAt10 ctxScenarioA emptyWorld).2
     = [] ++ map (fun ev => LogSyncing (from ev) (to ev)) planScenarioA.
Proof.
  apply (round_requests_follow_plan envGapAt10 ctxScenarioA emptyWorld planScenarioA);
    reflexivity.
Defined.

(** ** Parallel ranges do not wait for each other *)

Lemma length_filter_delete {A} (P : A -> Prop) `{!forall x, Decision (P x)}
    (l : list A) (k : nat) (x : A) :
  l !! k = Some x ->
  length (filter P l)
  = (length (filter P (delete k l)) + (if decide (P x) then 1 else 0))%nat.
Proof.
  intros Hk. rewrite <- (take_drop_middle l k x Hk) at 1.
  rewrite delete_take_drop, !filter_app, filter_cons, !length_app.
  case_decide; simpl; lia.
Qed.

Lemma Exists_delete {A} (P : A -> Prop) (l : list A) (k : nat) (x : A) :
  l !! k = Some x -> Exists P l <-> P x \/ Exists P (delete k l).
Proof.
  intros Hk. rewrite <- (take_drop_middle l k x Hk) at 1.
  rewrite delete_take_drop, !Exists_app, Exists_cons. tauto.
Qed.

Lemma imap_pair_snd {A} (l : list A) : (imap (fun i x => (i, x)) l).*2 = l.
Proof.
  apply list_eq. intros i. rewrite list_lookup_fmap, list_lookup_imap.
  by destruct (l !! i).
Qed.

(** Outside the test mode, with a store that does not fail, a range
    succeeds and queues one item when the node answers, and fails without
    queueing when it does not. *)
Lemma resume_fetched env ev w :
  IS_DEV_TEST env = false ->
  store_reliable env ->
  if fetched env ev
  then exists r w', Syncer.syncBlocksRange_resume env ev w = (Ok r, w')
                    /\ length (syncTransactionsQueue w')
                       = S (length (syncTransactionsQueue w))
  else exists e w', Syncer.syncBlocksRange_resume env ev w = (Throw e, w')
                    /\ syncTransactionsQueue w' = syncTransactionsQueue w.
Proof.
  intros Hdev (Hins & Hpush & Hcommit).
  unfold fetched, Syncer.syncBlocksRange_resume, Syncer.syncBlocksRange_body.
  rewrite Hdev. simpl.
  destruct (blocksFromNode env _ _) as [page|e]; [|by eauto].
  unfold transaction, Syncer.persist.
  specialize (Hins (blocks page) (blocksTable w)).
  destruct (insertMany env _ _) as [rows failed]. simpl in Hins. subst failed.
  rewrite Hpush, Hcommit. do 2 eexists. split; [reflexivity|].
  simpl. rewrite length_app. simpl. lia.
Qed.

(** Once every range has settled the queue holds one more item for each
    range that the node answered. *)
Lemma settleRest_counts env n : forall j fl w fl' w',
  IS_DEV_TEST env = false ->
  store_reliable env ->
  length (Syncer.pending fl) = n ->
  Syncer.settleRest env n j fl w = (fl', w') ->
  length (syncTransactionsQueue w')
  = (length (syncTransactionsQueue w)
     + length (filter (fun ev => fetched env ev = true) (Syncer.pending fl).*2))%nat.
Proof.
  induction n as [|n IH]; simpl; intros j fl w fl' w' Hdev Hstore Hlen H.
  - injection H as <- <-. apply nil_length_inv in Hlen. rewrite Hlen. simpl. lia.
  - destruct (Syncer.settle env _ fl w) as [fl1 w1] eqn:Hs.
    revert Hs. unfold Syncer.settle.
    set (k := (completion env j `mod` length (Syncer.pending fl))%nat).
    assert (Hk : (k < length (Syncer.pending fl))%nat).
    { apply Nat.mod_upper_bound. lia. }
    destruct (lookup_lt_is_Some_2 _ _ Hk) as [[i ev] Hlk]. rewrite Hlk.
    assert (Hev : (Syncer.pending fl).*2 !! k = Some ev).
    { by rewrite list_lookup_fmap, Hlk. }
    pose proof (resume_fetched env ev w Hdev Hstore) as Hres.
    rewrite (length_filter_delete _ _ k ev Hev).
    destruct (Syncer.syncBlocksRange_resume env ev w) as [res w2].
    intros [= <- <-].
    apply IH in H; [|done|done|].
    2:{ simpl. rewrite length_delete by (by eexists). lia. }
    simpl in H. rewrite list_fmap_delete in H. rewrite H. clear H.
    destruct (fetched env ev) eqn:Hf.
    + destruct Hres as (r & w3 & [= -> ->] & Hq). rewrite Hq.
      rewrite decide_True by done. lia.
    + destruct Hres as (e & w3 & [= -> ->] & Hq). rewrite Hq.
      rewrite decide_False by done. lia.
Qed.

(** [Promise.all] is rejected exactly when the node leaves a pending range
    without answer. *)
Lemma settleAll_rejects_iff env n : forall j fl w fl' w',
  IS_DEV_TEST env = false ->
  store_reliable env ->
  length (Syncer.pending fl) = n ->
  Syncer.rejection fl = None ->
  Syncer.settleAll env n j fl w = (fl', w') ->
  is_Some (Syncer.rejection fl')
  <-> Exists (fun ev => fetched env ev = false) (Syncer.pending fl).*2.
Proof.
  induction n as [|n IH]; simpl; intros j fl w fl' w' Hdev Hstore Hlen Hnone H.
  - injection H as <- <-. apply nil_length_inv in Hlen. rewrite Hlen, Hnone. simpl.
    rewrite Exists_nil. split; [by intros [? [=]]|done].
  - rewrite Hnone in H.
    destruct (Syncer.settle env _ fl w) as [fl1 w1] eqn:Hs.
    revert Hs. unfold Syncer.settle.
    set (k := (completion env j `mod` length (Syncer.pending fl))%nat).
    assert (Hk : (k < length (Syncer.pending fl))%nat).
    { apply Nat.mod_upper_bound. lia. }
    destruct (lookup_lt_is_Some_2 _ _ Hk) as [[i ev] Hlk]. rewrite Hlk.
    assert (Hev : (Syncer.pending fl).*2 !! k = Some ev).
    { by rewrite list_lookup_fmap, Hlk. }
    pose proof (resume_fetched env ev w Hdev Hstore) as Hres.
    rewrite (Exists_delete _ _ k ev Hev).
    destruct (Syncer.syncBlocksRange_resume env ev w) as [res w2].
    intros [= <- <-]. rewrite Hnone in H.
    destruct (fetched env ev) eqn:Hf.
    + destruct Hres as (r & w3 & [= -> ->] & _).
      apply IH in H; [|done|done| |done].
      2:{ simpl. rewrite length_delete by (by eexists). lia. }
      simpl in H. rewrite list_fmap_delete in H. rewrite H.
      intuition discriminate.
    + destruct Hres as (e & w3 & [= -> ->] & _).
      destruct n as [|n]; simpl in H; injection H as <- _; simpl;
        split; intros _; [by left|by eexists|by left|by eexists].
Qed.

(** A round that is fulfilled has nothing left in flight. *)
Lemma settleAll_fulfilled env n : forall j fl w fl' w',
  Syncer.settleAll env n j fl w = (fl', w') ->
  Syncer.rejection fl' = None ->
  Syncer.settleRest env n j fl w = (fl', w').
Proof.
  induction n as [|n IH]; simpl; intros j fl w fl' w' H Hnone; [done|].
  destruct (Syncer.rejection fl) eqn:Hrej; [injection H as <- _; congruence|].
  destruct (Syncer.settle env _ fl w) as [fl1 w1]. by apply IH.
Qed.

(** X5.  Outside the test mode, with a store, a queue and a commit that do
    not fail, a round is rejected exactly when the node leaves some range
    without answer.  The rejection does not cancel the other ranges: once
    every range of the round has settled, the queue holds one more item for
    each range that the node answered.  A round that is fulfilled returns
    with every range settled. *)
Theorem parallel_ranges_are_independent (env : Env) (ctx : Context) (w : World)
    (ws : list Window) :
  IS_DEV_TEST env = false ->
  store_reliable env ->
  Syncer.createBatchEvents ctx = Ok ws ->
  (0 <? cursor ctx) && bool_decide (ws = []) = false ->
  ((exists e, (Syncer.syncBlocks env ctx w).1 = Throw e)
   <-> Exists (fun ev => fetched env ev = false) ws)
  /\ length (syncTransactionsQueue (Syncer.settledWorld env ws w))
     = (length (syncTransactionsQueue w)
        + length (filter (fun ev => fetched env ev = true) ws))%nat
  /\ (forall out, (Syncer.syncBlocks env ctx w).1 = Ok out ->
        (Syncer.syncBlocks env ctx w).2 = Syncer.settledWorld env ws w).
Proof.
  intros Hdev Hstore Hplan Hguard.
  assert (Hcall : syncTransactionsQueue (Syncer.callAll env ws w) = syncTransactionsQueue w).
  { unfold Syncer.callAll. clear. revert w.
    induction ws as [|ev ws IH]; simpl; intros w; [done|].
    by rewrite IH, syncBlocksRange_call_queue. }
  unfold Syncer.syncBlocks, Syncer.settledWorld. rewrite Hplan, Hguard, Hdev.
  unfold Syncer.Promise_all.
  destruct (Syncer.settleAll env _ _ _ _) as [fl' w1] eqn:Hall.
  destruct (Syncer.settleRest env _ _ _ _) as [fl2 w2] eqn:Hrest.
  assert (Hlen : length (Syncer.pending (Syncer.inFlight ws)) = length ws)
    by apply length_imap.
  pose proof (settleAll_rejects_iff _ _ _ _ _ _ _ Hdev Hstore Hlen eq_refl Hall) as Hrej.
  pose proof (settleRest_counts _ _ _ _ _ _ _ Hdev Hstore Hlen Hrest) as Hqueue.
  simpl in Hrej, Hqueue. rewrite imap_pair_snd in Hrej, Hqueue. rewrite Hcall in Hqueue.
  split; [|split; [exact Hqueue|]].
  - destruct (Syncer.rejection fl') as [e|]; simpl.
    + split; [intros _; apply Hrej; by eexists|by eauto].
    + split; [by intros [e [=]]|]. intros Hex. apply Hrej in Hex as [e [=]].
  - intros out. destruct (Syncer.rejection fl') as [e|] eqn:Hnone; simpl; [discriminate|].
    intros _. apply settleAll_fulfilled in Hall; [|done]. congruence.
Qed.

Lemma parallel_ranges_are_independent_witness :
  ((exists e, (Syncer.syncBlocks envGapAt0 ctxScenarioA emptyWorld).1 = Throw e)
   <-> Exists (fun ev => fetched envGapAt0 ev = false) planScenarioA)
  /\ length (syncTransactionsQueue (Syncer.settledWorld envGapAt0 planScenarioA emptyWorld))
     = (0 + length (filter (fun ev => fetched envGapAt0 ev = true) planScenarioA))%nat
  /\ (forall out, (Syncer.syncBlocks envGapAt0 ctxScenarioA emptyWorld).1 = Ok out ->
        (Syncer.syncBlocks envGapAt0 ctxScenarioA emptyWorld).2
        = Syncer.settledWorld envGapAt0 planScenarioA emptyWorld).
Proof.
  apply (parallel_ranges_are_independent envGapAt0 ctxScenarioA emptyWorld planScenarioA);
    try reflexivity.
  repeat split.
Defined.

(** The range that starts at height 0 completes first and is rejected: the
    round is rejected with an empty queue, and the two other ranges, still
    in flight, push their items afterwards. *)
Example gap_round :
  (Syncer.syncBlocks envGapAt0 ctxScenarioA emptyWorld).1
  = Throw (Rejected NodeClient "timeout")
  /\ syncTransactionsQueue (Syncer.syncBlocks envGapAt0 ctxScenarioA emptyWorld).2 = []
  /\ length (syncTransactionsQueue (Syncer.settledWorld envGapAt0 planScenarioA emptyWorld))
     = 2%nat.
Proof. repeat split; vm_compute; reflexivity. Qed.

(** ** What the machine keeps and where it stays *)

Lemma step_keeps_settings env r :
  offset (context (Machine.snapshot (Machine.step env r)))
  = offset (context (Machine.snapshot r))
  /\ limit (context (Machine.snapshot (Machine.step env r)))
     = limit (context (Machine.snapshot r))
  /\ watch (context (Machine.snapshot (Machine.step env r)))
     = watch (context (Machine.snapshot r)).
Proof.
  destruct r as [h [s ctx st] w]. unfold Machine.step. simpl.
  destruct st as [|e]; [|done]. unfold Machine.invoke. simpl.
  destruct s; simpl; try done.
  - unfold Syncer.getLatestBlock. by destruct (latestBlockFromNode env).
  - by destruct (Syncer.syncBlocks env ctx w) as [[out|e] w'].
  - by destruct (Syncer.syncMissingBlocks env ctx w) as [[out|e] w'].
  - unfold Syncer.getLatestBlock. by destruct (latestBlockFromNode env).
Qed.

(** X6.  Whatever the node, the store and the queue answer, and however
    long the machine runs, it never changes the [offset], the [limit] and
    the [watch] flag of its context. *)
Theorem run_keeps_settings (envs : list Env) (r : Machine.Run) :
  offset (context (Machine.snapshot (Machine.run envs r)))
  = offset (context (Machine.snapshot r))
  /\ limit (context (Machine.snapshot (Machine.run envs r)))
     = limit (context (Machine.snapshot r))
  /\ watch (context (Machine.snapshot (Machine.run envs r)))
     = watch (context (Machine.snapshot r)).
Proof.
  unfold Machine.run. revert r. induction envs as [|env envs IH]; simpl; intros r.
  - done.
  - destruct (IH (Machine.step env r)) as (-> & -> & ->). apply step_keeps_settings.
Qed.

Lemma step_watch_loop env r :
  inWatchLoop (value (Machine.snapshot r)) = true ->
  inWatchLoop (value (Machine.snapshot (Machine.step env r))) = true
  /\ lastRound (Machine.history (Machine.step env r)) = lastRound (Machine.history r).
Proof.
  destruct r as [h [s ctx st] w]. unfold Machine.step. simpl.
  destruct st as [|e]; [|done]. unfold Machine.invoke.
  destruct s; simpl; try discriminate; intros _.
  - by rewrite lastRound_snoc.
  - destruct (Syncer.syncMissingBlocks env ctx w) as [[out|e] w']; simpl;
      by rewrite lastRound_snoc.
  - unfold Syncer.getLatestBlock.
    destruct (latestBlockFromNode env); simpl; by rewrite lastRound_snoc.
Qed.

(** X7.  Once the machine is in the watch loop ([waiting],
    [syncingMissingBlocks], [resettingLastBlock]) it stays there: it never
    goes back to [syncingBlocks], so no further round is planned, whatever
    the catch-up steps report. *)
Theorem watch_loop_is_closed (envs : list Env) (r : Machine.Run) :
  inWatchLoop (value (Machine.snapshot r)) = true ->
  inWatchLoop (value (Machine.snapshot (Machine.run envs r))) = true
  /\ lastRound (Machine.history (Machine.run envs r)) = lastRound (Machine.history r).
Proof.
  unfold Machine.run. revert r. induction envs as [|env envs IH]; simpl; intros r Hr.
  - done.
  - destruct (step_watch_loop env r Hr) as [Hloop <-]. by apply IH.
Qed.

Lemma watch_loop_is_closed_witness :
  inWatchLoop
    (value (Machine.snapshot
              (Machine.run (replicate 7 (sampleEnv false 22))
                 {| Machine.history := [];
                    Machine.snapshot := resting waiting ctxScenarioA;
                    Machine.world := emptyWorld |}))) = true
  /\ lastRound
       (Machine.history
          (Machine.run (replicate 7 (sampleEnv false 22))
             {| Machine.history := [];
                Machine.snapshot := resting waiting ctxScenarioA;
                Machine.world := emptyWorld |})) = lastRound [].
Proof.
  apply (watch_loop_is_closed (replicate 7 (sampleEnv false 22))
           {| Machine.history := [];
              Machine.snapshot := resting waiting ctxScenarioA;
              Machine.world := emptyWorld |}).
  reflexivity.
Defined.

(** ** Catching up with the head *)

Lemma plan_tiles ctx ws :
  0 < offset ctx ->
  Syncer.createBatchEvents ctx = Ok ws ->
  tiles (cursor ctx) ws (Z.max (cursor ctx) (planEnd ctx)).
Proof.
  intros Hoff Hplan.
  destruct (createBatchEvents_Ok_inv ctx ws ltac:(lia) Hplan) as [-> _].
  pose proof (numberOfBatches_ceil ctx Hoff) as Hceil. cbv zeta in Hceil.
  unfold limitEnd in Hceil.
  destruct (Z.to_nat (numberOfBatches ctx)) as [|n] eqn:Hn.
  - simpl. unfold planEnd. assert (numberOfBatches ctx <= 0) by lia. nia.
  - assert (Hk : numberOfBatches ctx = Z.of_nat n + 1) by lia.
    pose proof (tiles_pages ctx n 0 Hoff) as Ht.
    replace (cursor ctx + Z.of_nat 0 * offset ctx) with (cursor ctx) in Ht by lia.
    replace (Z.max (cursor ctx) (planEnd ctx))
      with (Z.min (cursor ctx + (Z.of_nat 0 + Z.of_nat n + 1) * offset ctx)
                  (Syncer.getLastBlockHeight ctx)).
    + apply Ht. nia.
    + unfold planEnd. rewrite Hk.
      replace (Z.of_nat 0 + Z.of_nat n + 1) with (Z.of_nat n + 1) by lia. nia.
Qed.

Lemma round_returns env ctx w ws :
  rounds_return env ->
  Syncer.createBatchEvents ctx = Ok ws ->
  exists out w', Syncer.syncBlocks env ctx w = (Ok out, w').
Proof.
  intros [Hdev|Hrel] Hplan; [|by eapply syncBlocks_returns].
  unfold Syncer.syncBlocks. rewrite Hplan. destruct (_ && _); [by eauto|].
  rewrite Hdev, forAwait_dev by done. by eauto.
Qed.

Lemma syncBlocks_empty_plan env ctx w :
  Syncer.createBatchEvents ctx = Ok [] ->
  Syncer.syncBlocks env ctx w
  = if 0 <? cursor ctx
    then (Ok (Some {| endCursor := Some (cursor ctx); hasBlocks := false |}),
          console_log LogAllSynced w)
    else (Ok None, w).
Proof.
  intros Hplan. unfold Syncer.syncBlocks. rewrite Hplan. simpl.
  destruct (0 <? cursor ctx); [done|].
  destruct (IS_DEV_TEST env); [done|]. unfold Syncer.Promise_all. simpl.
  by destruct w.
Qed.

(** One round below the head moves the cursor up and asks for another
    round; a round at the head ends the catch-up. *)
Lemma round_step env h ctx w :
  0 < offset ctx ->
  0 < limit ctx <= Js.MAX_ARRAY_LENGTH ->
  cursor ctx <= Syncer.getLastBlockHeight ctx ->
  rounds_return env ->
  full_pages env (Syncer.getLastBlockHeight ctx) ->
  if cursor ctx <? Syncer.getLastBlockHeight ctx
  then exists h' ctx' w',
         Machine.step env (atRound h ctx w) = atRound h' ctx' w'
         /\ cursor ctx < cursor ctx' <= Syncer.getLastBlockHeight ctx
         /\ offset ctx' = offset ctx /\ limit ctx' = limit ctx
         /\ lastBlock ctx' = lastBlock ctx /\ watch ctx' = watch ctx
  else value (Machine.snapshot (Machine.step env (atRound h ctx w)))
       = (if Machine.needToWatch ctx then waiting else idle)
       /\ status (Machine.snapshot (Machine.step env (atRound h ctx w))) = active
       /\ cursor (context (Machine.snapshot (Machine.step env (atRound h ctx w))))
          = Syncer.getLastBlockHeight ctx.
Proof.
  intros Hoff Hlim Hhead Hret Hfull.
  pose proof (numberOfBatches_ceil ctx Hoff) as Hceil. cbv zeta in Hceil.
  unfold limitEnd in Hceil.
  assert (Hfit : numberOfBatches ctx <= Js.MAX_ARRAY_LENGTH) by nia.
  pose proof (createBatchEvents_pages ctx ltac:(lia) Hfit) as Hplan.
  destruct (Z.ltb_spec (cursor ctx) (Syncer.getLastBlockHeight ctx)) as [Hbelow|Hat].
  - set (ws := map _ _) in Hplan.
    pose proof (plan_tiles ctx ws Hoff Hplan) as Htiles.
    assert (Hend : cursor ctx < planEnd ctx <= Syncer.getLastBlockHeight ctx).
    { unfold planEnd. nia. }
    destruct (last ws) as [lastw|] eqn:Hlast.
    2:{ apply last_None in Hlast. rewrite Hlast in Htiles. simpl in Htiles. lia. }
    destruct (tiles_last _ _ _ _ Htiles Hlast) as (Hfrom & Hlt & Hto).
    destruct (round_returns env ctx w ws Hret Hplan) as (out & w' & Hround).
    destruct (syncBlocks_last _ _ _ _ _ _ _ Hplan Hlast Hround) as (r & Hr & ->).
    rewrite Hfull in Hr by lia. injection Hr as <-.
    exists (h ++ [done_syncBlocks (Some {| endCursor := Some (to lastw); hasBlocks := true |})]),
      (Machine.assign_lastResult
         (Some {| endCursor := Some (to lastw); hasBlocks := true |}) ctx), w'.
    split.
    + unfold Machine.step, Machine.invoke, atRound. simpl. by rewrite Hround.
    + simpl. repeat split; lia.
  - assert (Hnone : numberOfBatches ctx <= 0) by nia.
    replace (Z.to_nat (numberOfBatches ctx)) with 0%nat in Hplan by lia.
    simpl in Hplan.
    unfold Machine.step, Machine.invoke, atRound. simpl.
    rewrite (syncBlocks_empty_plan env ctx w Hplan).
    unfold Machine.needToWatch.
    destruct (0 <? cursor ctx); simpl; unfold Machine.needToWatch; simpl;
      destruct (Js.Boolean (watch ctx)); simpl; repeat split; lia.
Qed.

Lemma catch_up_bounded env (m : nat) : forall h ctx w,
  0 < offset ctx ->
  0 < limit ctx <= Js.MAX_ARRAY_LENGTH ->
  cursor ctx <= Syncer.getLastBlockHeight ctx ->
  rounds_return env ->
  full_pages env (Syncer.getLastBlockHeight ctx) ->
  (Z.to_nat (Syncer.getLastBlockHeight ctx - cursor ctx) <= m)%nat ->
  exists n : nat,
    (n <= S m)%nat
    /\ value (Machine.snapshot (Machine.run (replicate n env) (atRound h ctx w)))
       = (if Machine.needToWatch ctx then waiting else idle)
    /\ status (Machine.snapshot (Machine.run (replicate n env) (atRound h ctx w))) = active
    /\ cursor (context (Machine.snapshot (Machine.run (replicate n env) (atRound h ctx w))))
       = Syncer.getLastBlockHeight ctx.
Proof.
  induction m as [|m IH]; intros h ctx w Hoff Hlim Hhead Hret Hfull Hm;
    pose proof (round_step env h ctx w Hoff Hlim Hhead Hret Hfull) as Hstep;
    destruct (Z.ltb_spec (cursor ctx) (Syncer.getLastBlockHeight ctx)) as [Hbelow|Hat].
  - lia.
  - exists 1%nat. split; [lia|exact Hstep].
  - destruct Hstep as (h' & ctx' & w' & Hstep & Hcur & Ho & Hl & Hb & Hw).
    assert (Hsame : Syncer.getLastBlockHeight ctx' = Syncer.getLastBlockHeight ctx).
    { unfold Syncer.getLastBlockHeight. by rewrite Hb. }
    assert (Ho' : 0 < offset ctx') by (rewrite Ho; exact Hoff).
    assert (Hl' : 0 < limit ctx' <= Js.MAX_ARRAY_LENGTH) by (rewrite Hl; exact Hlim).
    assert (Hh' : cursor ctx' <= Syncer.getLastBlockHeight ctx') by (rewrite Hsame; lia).
    assert (Hf' : full_pages env (Syncer.getLastBlockHeight ctx'))
      by (rewrite Hsame; exact Hfull).
    assert (Hm' : (Z.to_nat (Syncer.getLastBlockHeight ctx' - cursor ctx') <= m)%nat)
      by (rewrite Hsame; lia).
    destruct (IH h' ctx' w' Ho' Hl' Hh' Hret Hf' Hm') as (n & Hn & Hrun).
    exists (S n). split; [lia|]. simpl.
    change (Machine.run (env :: replicate n env) (atRound h ctx w))
      with (Machine.run (replicate n env) (Machine.step env (atRound h ctx w))).
    rewrite Hstep. unfold Machine.needToWatch in *. rewrite Hw in Hrun.
    rewrite Hsame in Hrun. exact Hrun.
  - exists 1%nat. split; [lia|exact Hstep].
Qed.

(** X9.  Catch-up ends at the head.  With a positive offset and limit, a
    cursor not above the head, and ranges that are answered in full (in the
    test mode, or by a node that returns the blocks asked for with the end
    of the range as [endCursor]), the machine repeats rounds until the
    cursor equals the head, in at most [head - cursor + 1] steps, and then
    rests in [waiting] in watch mode and in [idle] otherwise. *)
Theorem catch_up_reaches_head (env : Env) (h : list Event) (ctx : Context) (w : World) :
  0 < offset ctx ->
  0 < limit ctx <= Js.MAX_ARRAY_LENGTH ->
  cursor ctx <= Syncer.getLastBlockHeight ctx ->
  rounds_return env ->
  full_pages env (Syncer.getLastBlockHeight ctx) ->
  exists n : nat,
    (n <= Z.to_nat (Syncer.getLastBlockHeight ctx - cursor ctx) + 1)%nat
    /\ value (Machine.snapshot (Machine.run (replicate n env) (atRound h ctx w)))
       = (if Machine.needToWatch ctx then waiting else idle)
    /\ status (Machine.snapshot (Machine.run (replicate n env) (atRound h ctx w))) = active
    /\ cursor (context (Machine.snapshot (Machine.run (replicate n env) (atRound h ctx w))))
       = Syncer.getLastBlockHeight ctx.
Proof.
  intros Hoff Hlim Hhead Hret Hfull.
  destruct (catch_up_bounded env _ h ctx w Hoff Hlim Hhead Hret Hfull (le_n _))
    as (n & Hn & Hrun).
  exists n. split; [lia|exact Hrun].
Qed.

Lemma sampleEnv_full_pages dev head : full_pages (sampleEnv dev head) head.
Proof.
  intros ev Hlt Hle. unfold rangeValue. destruct dev; simpl; [done|].
  do 2 f_equal.
  - f_equal. lia.
  - apply Nat.ltb_lt. rewrite length_map, length_seq. lia.
Qed.

Lemma sampleEnv_rounds_return dev head : rounds_return (sampleEnv dev head).
Proof.
  right. repeat split. intros first after. eexists. reflexivity.
Qed.

Lemma catch_up_reaches_head_witness :
  exists n : nat,
    (n <= Z.to_nat (22 - 0) + 1)%nat
    /\ value (Machine.snapshot
                (Machine.run (replicate n (sampleEnv false 22))
                   (atRound [START_SYNC] ctxScenarioA emptyWorld)))
       = idle
    /\ status (Machine.snapshot
                 (Machine.run (replicate n (sampleEnv false 22))
                    (atRound [START_SYNC] ctxScenarioA emptyWorld))) = active
    /\ cursor (context (Machine.snapshot
                 (Machine.run (replicate n (sampleEnv false 22))
                    (atRound [START_SYNC] ctxScenarioA emptyWorld)))) = 22.
Proof.
  apply (catch_up_reaches_head (sampleEnv false 22) [START_SYNC] ctxScenarioA emptyWorld).
  - reflexivity.
  - split; [reflexivity|discriminate].
  - discriminate.
  - apply sampleEnv_rounds_return.
  - apply sampleEnv_full_pages.
Defined.

(** ** One turn of the watch loop *)

(** X10.  Outside the test mode, with a store that does not fail, one turn
    of the watch loop (the delay, [syncMissingBlocks], the refresh of the
    head) asks the node in a single request for everything from the cursor
    to the fresh head, whatever [offset] and [limit] are, pushes one work
    item, records the result, moves the cursor to the reported [endCursor]
    (or keeps it), stores the fresh head and waits again, also when the
    result has blocks. *)
Theorem watch_turn (env : Env) (h : list Event) (ctx : Context) (w : World)
    (b : GQLBlock) (page : BlocksPage) :
  IS_DEV_TEST env = false ->
  store_reliable env ->
  latestBlockFromNode env = Ok b ->
  blocksFromNode env (height (header b) - cursor ctx) (cursor ctx) = Ok page ->
  let result := {| endCursor := pageEndCursor page;
                   hasBlocks := (0 <? length (blocks page))%nat |} in
  let turn := Machine.run [env; env; env]
                {| Machine.history := h;
                   Machine.snapshot := resting waiting ctx;
                   Machine.world := w |} in
  Machine.snapshot turn
  = resting waiting
      {| cursor := match pageEndCursor page with
                   | Some c => c
                   | None => cursor ctx
                   end;
         offset := offset ctx; limit := limit ctx;
         lastBlock := Some b; lastResult := Some result; watch := watch ctx |}
  /\ Machine.history turn
     = h ++ [after_1000; done_syncMissingBlocks (Some result); done_getLatestBlock b]
  /\ nodeRequests (Machine.world turn)
     = nodeRequests w ++ [(height (header b) - cursor ctx, cursor ctx)]
  /\ syncTransactionsQueue (Machine.world turn)
     = syncTransactionsQueue w ++ [omap id (blocks page)].
Proof.
  intros Hdev (Hins & Hpush & Hcommit) Hhead Hpage result turn. subst turn.
  assert (Hmissing : exists w',
            Syncer.syncMissingBlocks env ctx w = (Ok result, w')
            /\ nodeRequests w'
               = nodeRequests w ++ [(height (header b) - cursor ctx, cursor ctx)]
            /\ syncTransactionsQueue w'
               = syncTransactionsQueue w ++ [omap id (blocks page)]).
  { unfold Syncer.syncMissingBlocks, Syncer.getLatestBlock. rewrite Hhead.
    unfold Syncer.syncBlocksRange, Syncer.syncBlocksRange_resume,
      Syncer.syncBlocksRange_body, Syncer.syncBlocksRange_call, Syncer.getLastBlockHeight.
    rewrite Hdev. cbn -[Z.sub]. rewrite Hpage.
    unfold transaction, Syncer.persist. cbn -[Z.sub].
    specialize (Hins (blocks page) (blocksTable w)).
    destruct (insertMany env _ _) as [rows failed]. simpl in Hins. subst failed.
    rewrite Hpush, Hcommit. eexists. split; [reflexivity|]. by split. }
  destruct Hmissing as (w' & Hrun & Hreq & Hqueue).
  assert (Hdelay : Machine.step env {| Machine.history := h;
                                       Machine.snapshot := resting waiting ctx;
                                       Machine.world := w |}
                   = {| Machine.history := h ++ [after_1000];
                        Machine.snapshot := resting syncingMissingBlocks ctx;
                        Machine.world := w |}) by reflexivity.
  assert (Hsync : Machine.step env {| Machine.history := h ++ [after_1000];
                                      Machine.snapshot := resting syncingMissingBlocks ctx;
                                      Machine.world := w |}
                  = {| Machine.history :=
                         (h ++ [after_1000]) ++ [done_syncMissingBlocks (Some result)];
                       Machine.snapshot :=
                         resting resettingLastBlock
                           (Machine.assign_lastResult (Some result) ctx);
                       Machine.world := w' |}).
  { unfold Machine.step, Machine.invoke. cbn [Machine.snapshot Machine.world
      Machine.history resting status value context]. by rewrite Hrun. }
  assert (Hrefresh : forall h2 ctx2,
            Machine.step env {| Machine.history := h2;
                                Machine.snapshot := resting resettingLastBlock ctx2;
                                Machine.world := w' |}
            = {| Machine.history := h2 ++ [done_getLatestBlock b];
                 Machine.snapshot := resting waiting (Machine.assign_lastBlock b ctx2);
                 Machine.world := w' |}).
  { intros h2 ctx2. unfold Machine.step, Machine.invoke, Syncer.getLatestBlock.
    cbn [Machine.snapshot Machine.world Machine.history resting status value context].
    by rewrite Hhead. }
  unfold Machine.run. cbn [foldl]. rewrite Hdelay, Hsync, Hrefresh.
  cbn [Machine.snapshot Machine.world Machine.history].
  rewrite <- !app_assoc. repeat split; done.
Qed.

Lemma watch_turn_witness :
  Machine.snapshot
    (Machine.run [sampleEnv false 22; sampleEnv false 22; sampleEnv false 22]
       {| Machine.history := [];
          Machine.snapshot := resting waiting ctxScenarioA;
          Machine.world := emptyWorld |})
  = resting waiting
      {| cursor := 22; offset := 10; limit := 25;
         lastBlock := Some (blockAt 22);
         lastResult := Some {| endCursor := Some 22; hasBlocks := true |};
         watch := None |}
  /\ nodeRequests
       (Machine.world
          (Machine.run [sampleEnv false 22; sampleEnv false 22; sampleEnv false 22]
             {| Machine.history := [];
                Machine.snapshot := resting waiting ctxScenarioA;
                Machine.world := emptyWorld |}))
     = [] ++ [(22 - 0, 0)].
Proof.
  destruct (watch_turn (sampleEnv false 22) [] ctxScenarioA emptyWorld (blockAt 22)
              {| blocks := map (fun i : nat => Some (blockAt (Z.of_nat i))) (seq 0 22);
                 pageEndCursor := Some 22 |})
    as (Hsnap & _ & Hreq & _); try reflexivity.
  - repeat split.
  - split; [exact Hsnap|exact Hreq].
Defined.

(** ** More on the transaction repository *)

Section Upserts.

Context {GQLTransaction Columns TransactionEntity : Type}.
Variable toDBItem :
  GQLBlock -> GQLTransaction -> nat -> TransactionRepository.TransactionItem GQLTransaction Columns.
Variable create :
  TransactionRepository.TransactionItem GQLTransaction Columns -> TransactionEntity.

Local Abbreviation Item := (TransactionRepository.TransactionItem GQLTransaction Columns).
Local Abbreviation key := (TransactionRepository._id GQLTransaction Columns).
Local Abbreviation statement :=
  (TransactionRepository.insertOnConflictDoUpdate GQLTransaction Columns).

(** A statement that succeeds keeps every row it finds and stores the
    proposed row under every key it does not find. *)
Lemma statement_table (values : list Item) : forall touched tbl ret tbl' items,
  statement values touched tbl ret = Ok (tbl', items) ->
  (forall k row, tbl !! k = Some row -> tbl' !! k = Some row)
  /\ (forall v, v ∈ values -> tbl !! key v = None -> tbl' !! key v = Some v).
Proof.
  induction values as [|v values IH]; simpl; intros touched tbl ret tbl' items H.
  - injection H as <- _. split; [done|]. by intros v Hv%elem_of_nil.
  - case_bool_decide as Htouched; [discriminate|].
    pose proof (statement_first _ _ _ _ _ _ H) as (_ & Hfresh & _).
    apply IH in H as [Hkeep Hnew]. split.
    + intros k row Hk. apply Hkeep. destruct (decide (key v = k)) as [<-|Hne].
      * by rewrite Hk, set_data_same, lookup_insert_eq.
      * by rewrite lookup_insert_ne.
    + intros v' [->|Hv']%elem_of_cons Hnone.
      * apply Hkeep. by rewrite Hnone, lookup_insert_eq.
      * apply Hnew; [done|]. rewrite lookup_insert_ne; [done|].
        intros Heq. apply (Hfresh v' Hv'). apply elem_of_union_l, elem_of_singleton.
        by symmetry.
Qed.

(** X11.  [upsertMany] raises an error whenever the list of inserts is
    empty or two of its rows have the same [_id]: an empty list is refused by
    [values ()], and two rows with the same [_id] make the statement touch a
    row twice. *)
Theorem upsertMany_fails_on_empty_or_repeated (inserts : list (GQLBlock * GQLTransaction))
    (tbl : gmap string Item) :
  inserts = [] \/ ~ NoDup (key <$> proposedRows toDBItem inserts) ->
  exists e, TransactionRepository.upsertMany _ _ _ toDBItem create inserts tbl = Throw e.
Proof.
  unfold TransactionRepository.upsertMany. fold (proposedRows toDBItem inserts).
  intros Hbad. case_bool_decide as Hempty; [by eauto|].
  destruct Hbad as [->|Hdup]; [done|].
  destruct (statement _ ∅ tbl []) as [[tbl1 items]|e] eqn:Hs; [|by eauto].
  apply statement_first in Hs as (Hnodup & _). contradiction.
Qed.

(** X12.  When [upsertMany] succeeds, every row that was in the table is
    still there unchanged, its [data] included, also when an insert carries
    the same [_id] with other data; every proposed row whose [_id] was not
    in the table is stored as proposed; every other key is left alone. *)
Theorem upsertMany_keeps_existing_rows (inserts : list (GQLBlock * GQLTransaction))
    (tbl tbl' : gmap string Item) (entities : list TransactionEntity) :
  TransactionRepository.upsertMany _ _ _ toDBItem create inserts tbl = Ok (tbl', entities) ->
  (forall k row, tbl !! k = Some row -> tbl' !! k = Some row)
  /\ (forall v, v ∈ proposedRows toDBItem inserts ->
        tbl !! key v = None -> tbl' !! key v = Some v)
  /\ (forall k, k ∉ (key <$> proposedRows toDBItem inserts) -> tbl' !! k = tbl !! k).
Proof.
  unfold TransactionRepository.upsertMany. fold (proposedRows toDBItem inserts).
  case_bool_decide as Hempty; [discriminate|].
  destruct (statement _ ∅ tbl []) as [[tbl1 items]|e] eqn:Hs; [|discriminate].
  simpl. intros [= <- _].
  pose proof (statement_first _ _ _ _ _ _ Hs) as (_ & _ & Hother & _).
  apply statement_table in Hs as [Hkeep Hnew]. by repeat split.
Qed.

(** X13.  When [upsertMany] succeeds it returns one entity for each insert,
    in the order of the inserts: the entity of the row that the table holds
    under the [_id] of that insert after the call. *)
Theorem upsertMany_returns_stored_rows (inserts : list (GQLBlock * GQLTransaction))
    (tbl tbl' : gmap string Item) (entities : list TransactionEntity) :
  TransactionRepository.upsertMany _ _ _ toDBItem create inserts tbl = Ok (tbl', entities) ->
  length entities = length inserts
  /\ exists rows,
       entities = map create rows
       /\ Forall2 (fun v row => tbl' !! key v = Some row)
            (proposedRows toDBItem inserts) rows.
Proof.
  unfold TransactionRepository.upsertMany. fold (proposedRows toDBItem inserts).
  case_bool_decide as Hempty; [discriminate|].
  destruct (statement _ ∅ tbl []) as [[tbl1 items]|e] eqn:Hs; [|discriminate].
  simpl. intros [= <- <-].
  apply statement_first in Hs as (_ & _ & _ & rows & -> & Hrows). simpl.
  split; [|by exists rows].
  rewrite length_map, <- (Forall2_length _ _ _ Hrows).
  unfold proposedRows. by rewrite length_imap.
Qed.

(** X15.  [upsertOne] is idempotent when the row exists already or when
    [toDBItem] stores the transaction as [data]: a second call with the same
    arguments returns the same table and the same entity as the first. *)
Theorem upsertOne_idempotent (block : GQLBlock) (transaction : GQLTransaction)
    (index : nat) (tbl : gmap string Item) :
  is_Some (tbl !! key (toDBItem block transaction index))
  \/ TransactionRepository.data _ _ (toDBItem block transaction index) = transaction ->
  TransactionRepository.upsertOne _ _ _ toDBItem create block transaction index
    (TransactionRepository.upsertOne _ _ _ toDBItem create block transaction index tbl).1
  = TransactionRepository.upsertOne _ _ _ toDBItem create block transaction index tbl.
Proof.
  intros Hcase.
  unfold TransactionRepository.upsertOne, TransactionRepository.createUpsertOne. simpl.
  rewrite lookup_insert_eq, insert_insert_eq.
  destruct (tbl !! key (toDBItem block transaction index)) as [existing|] eqn:Hk;
    [reflexivity|].
  destruct Hcase as [[? [=]]|Hdata].
  revert Hdata. generalize (toDBItem block transaction index).
  intros [i d c]. simpl. intros ->. reflexivity.
Qed.

End Upserts.

Lemma upsertMany_keeps_existing_rows_witness :
  exists tbl' entities,
    TransactionRepository.upsertMany _ _ _ sampleToDBItem id sampleInserts sampleTable
    = Ok (tbl', entities)
    /\ (forall k row, sampleTable !! k = Some row -> tbl' !! k = Some row)
    /\ (forall v, v ∈ proposedRows sampleToDBItem sampleInserts ->
          sampleTable !! TransactionRepository._id _ _ v = None ->
          tbl' !! TransactionRepository._id _ _ v = Some v)
    /\ (forall k,
          k ∉ (TransactionRepository._id _ _ <$> proposedRows sampleToDBItem sampleInserts) ->
          tbl' !! k = sampleTable !! k).
Proof.
  do 2 eexists. split.
  - vm_compute. reflexivity.
  - eapply (upsertMany_keeps_existing_rows sampleToDBItem id sampleInserts sampleTable).
    vm_compute. reflexivity.
Defined.

Lemma upsertMany_returns_stored_rows_witness :
  exists tbl' entities,
    TransactionRepository.upsertMany _ _ _ sampleToDBItem id sampleInserts sampleTable
    = Ok (tbl', entities)
    /\ length entities = length sampleInserts
    /\ exists rows,
         entities = map id rows
         /\ Forall2 (fun v row => tbl' !! TransactionRepository._id _ _ v = Some row)
              (proposedRows sampleToDBItem sampleInserts) rows.
Proof.
  do 2 eexists. split.
  - vm_compute. reflexivity.
  - eapply (upsertMany_returns_stored_rows sampleToDBItem id sampleInserts sampleTable).
    vm_compute. reflexivity.
Defined.

Lemma upsertOne_idempotent_witness :
  TransactionRepository.upsertOne _ _ _ sampleToDBItem id (blockAt 1) "tx-b" 0
    (TransactionRepository.upsertOne _ _ _ sampleToDBItem id (blockAt 1) "tx-b" 0
       sampleTable).1
  = TransactionRepository.upsertOne _ _ _ sampleToDBItem id (blockAt 1) "tx-b" 0 sampleTable.
Proof.
  apply (upsertOne_idempotent sampleToDBItem id (blockAt 1) "tx-b" 0 sampleTable).
  right. reflexivity.
Defined.

(** On a key that exists, [upsertMany] keeps the stored data and
    [upsertOne] replaces it. *)
Example upsert_on_existing_key :
  (exists tbl' entities,
     TransactionRepository.upsertMany _ _ _ sampleToDBItem id [(blockAt 1, "tx-a")] sampleTable
     = Ok (tbl', entities)
     /\ TransactionRepository.data _ _ <$> tbl' !! "tx-a" = Some "stored")
  /\ TransactionRepository.data _ _
       <$> (TransactionRepository.upsertOne _ _ _ sampleToDBItem id (blockAt 1) "tx-a" 0
              sampleTable).1 !! "tx-a"
     = Some "tx-a".
Proof.
  split.
  - do 2 eexists. split; vm_compute; reflexivity.
  - vm_compute. reflexivity.
Qed.

Lemma upsertMany_fails_on_empty_or_repeated_witness :
  exists e,
    TransactionRepository.upsertMany _ _ _ sampleToDBItem id
      [(blockAt 1, "tx-b"); (blockAt 2, "tx-b")] sampleTable = Throw e.
Proof.
  apply (upsertMany_fails_on_empty_or_repeated sampleToDBItem id
           [(blockAt 1, "tx-b"); (blockAt 2, "tx-b")] sampleTable).
  right. intros Hnodup. apply NoDup_cons in Hnodup as [Hfresh _].
  apply Hfresh. by left.
Defined.

(** ** The order of parallel ranges *)

Lemma callAll_trace env events : forall w,
  rangeTrace (Syncer.callAll env events w) = rangeTrace w ++ map Called events.
Proof.
  unfold Syncer.callAll.
  induction events as [|ev events IH]; simpl; intros w.
  - by rewrite app_nil_r.
  - rewrite IH. unfold Syncer.syncBlocksRange_call.
    destruct (negb (IS_DEV_TEST env)); simpl; by rewrite <- app_assoc.
Qed.

Lemma settleAll_trace env n : forall j fl w fl' w',
  Syncer.settleAll env n j fl w = (fl', w') ->
  exists settled, rangeTrace w' = rangeTrace w ++ map Settled settled.
Proof.
  induction n as [|n IH]; simpl; intros j fl w fl' w' H.
  - injection H as _ <-. exists []. by rewrite app_nil_r.
  - destruct (Syncer.rejection fl).
    { injection H as _ <-. exists []. by rewrite app_nil_r. }
    destruct (Syncer.settle env _ fl w) as [fl1 w1] eqn:Hs.
    apply IH in H as [settled ->]. revert Hs. unfold Syncer.settle.
    destruct (Syncer.pending fl !! _) as [[i ev]|]; [|by intros [= _ <-]; eauto].
    unfold Syncer.syncBlocksRange_resume.
    destruct (Syncer.syncBlocksRange_body env ev w) as [res w2] eqn:Hbody.
    apply body_keeps_log in Hbody as (_ & _ & Htrace).
    intros [= _ <-]. exists (ev :: settled). simpl. rewrite Htrace.
    by rewrite <- app_assoc.
Qed.

(** X16.  Outside the test mode a round that runs its plan calls every
    range, in the order of the plan, before any range settles: the calls
    are not interleaved with the completions. *)
Theorem parallel_round_calls_first (env : Env) (ctx : Context) (w : World)
    (ws : list Window) :
  IS_DEV_TEST env = false ->
  Syncer.createBatchEvents ctx = Ok ws ->
  (0 <? cursor ctx) && bool_decide (ws = []) = false ->
  exists settled,
    rangeTrace (Syncer.syncBlocks env ctx w).2
    = rangeTrace w ++ map Called ws ++ map Settled settled.
Proof.
  intros Hdev Hplan Hguard. unfold Syncer.syncBlocks. rewrite Hplan, Hguard, Hdev.
  unfold Syncer.Promise_all.
  destruct (Syncer.settleAll env _ _ _ _) as [fl' w1] eqn:Hall.
  apply settleAll_trace in Hall as [settled Htrace].
  rewrite callAll_trace in Htrace. exists settled.
  rewrite app_assoc, <- Htrace. by destruct (Syncer.rejection fl').
Qed.

Lemma parallel_round_calls_first_witness :
  exists settled,
    rangeTrace (Syncer.syncBlocks (sampleEnv false 22) ctxScenarioA emptyWorld).2
    = [] ++ map Called planScenarioA ++ map Settled settled.
Proof.
  apply (parallel_round_calls_first (sampleEnv false 22) ctxScenarioA emptyWorld
           planScenarioA); reflexivity.
Defined.
